(** * Selections of the Dance editor extension: model and properties

    Shallow embedding of [src/api/selection.ts] and [src/api/selections.ts].

    Conventions of the embedding.
    - JavaScript numbers that hold line numbers, columns, indices and
      rotation amounts are integers of [Z].  They are doubles: where the
      source adds an amount of any size to an index, the sum is rounded as a
      double rounds it ([roundToDouble]).
    - A [vscode.Position] is an object: two positions with the same
      coordinates may still be different objects, and the source tells them
      apart with [===].  A position therefore carries the reference [ref] of
      its object next to its coordinates; [isEqual] and the order look at the
      coordinates only, [same_object] looks at the reference only.
    - A [vscode.Selection] is an object too, and [Array.prototype.indexOf]
      finds one by [===]: a selection carries the reference [self] of its
      object next to the two positions it holds, and [same_selection] looks
      at that reference only.  A function that runs [new vscode.Selection]
      or [new vscode.Position] takes the reference of the object it builds
      as an argument.
    - [undefined] is [None]; a call that throws returns [None] where the
      function is written in the option monad. *)

From Stdlib Require Import ZArith Bool Lia String.
From stdpp Require Import base list sorting.

Local Open Scope Z_scope.

(** ** Positions (the part of [vscode.Position] the sources use) *)

Record Position : Type := mkPosition
  { line : Z;
    character : Z;
    ref : nat }.

(** A position object built at coordinates [(l, c)], living at reference [r]. *)
Definition at_ (l c : Z) (r : nat) : Position :=
  {| line := l; character := c; ref := r |}.

Definition isBefore (p q : Position) : bool :=
  if line p <? line q then true
  else if line q <? line p then false
  else character p <? character q.

Definition isBeforeOrEqual (p q : Position) : bool :=
  if line p <? line q then true
  else if line q <? line p then false
  else character p <=? character q.

Definition isAfter (p q : Position) : bool := negb (isBeforeOrEqual p q).

Definition isAfterOrEqual (p q : Position) : bool := negb (isBefore p q).

Definition isEqual (p q : Position) : bool :=
  (line p =? line q) && (character p =? character q).

Definition compareTo (p q : Position) : Z :=
  if line p <? line q then -1
  else if line q <? line p then 1
  else if character p <? character q then -1
  else if character q <? character p then 1
  else 0.

(** JavaScript's [p === q] on two position objects. *)
Definition same_object (p q : Position) : bool := Nat.eqb (ref p) (ref q).

(** ** Numbers

    Every integer below [2 ^ 53] in absolute value is a double.  The sum of
    two integer doubles is the nearest double to their exact sum, the one
    with the even mantissa on a tie: the exact sum when that is below
    [2 ^ 53] in absolute value, and otherwise the nearest multiple of the
    gap [2 ^ (e - 52)] between the doubles from [2 ^ e] to [2 ^ (e + 1)],
    where the sum lies.  (Sums of [2 ^ 1024] and more, which a double does
    not hold, do not arise from an index and a double.) *)
Definition roundToDouble (z : Z) : Z :=
  let m := Z.abs z in
  if m <? 2 ^ 53 then z
  else
    let gap := 2 ^ (Z.log2 m - 52) in
    let q := m / gap in
    let r := m mod gap in
    let q' := if 2 * r <? gap then q
              else if gap <? 2 * r then q + 1
              else if Z.even q then q
              else q + 1 in
    Z.sgn z * (q' * gap).

(** ** Selections (the part of [vscode.Selection] the sources use)

    [new vscode.Selection(anchor, active)] keeps both objects; its [start]
    is the anchor when the anchor is before the active position and the
    active position otherwise, and [end] is the other one. *)

Record Selection : Type := mkSelection
  { anchor : Position;
    active : Position;
    self : nat }.

Definition start (s : Selection) : Position :=
  if isBefore (anchor s) (active s) then anchor s else active s.

Definition end_ (s : Selection) : Position :=
  if isBefore (anchor s) (active s) then active s else anchor s.

(** [vscode.Selection.isReversed] is [anchor === end]: the end is the anchor
    object exactly when the anchor is not before the active position; in the
    other case the end is the active position, whose coordinates differ from
    the anchor's.  As the comment on [isStrictlyReversed] in selection.ts
    records, this is [true] for empty selections. *)
Definition isReversed (s : Selection) : bool :=
  negb (isBefore (anchor s) (active s)).

Definition isEmpty (s : Selection) : bool := isEqual (start s) (end_ s).

(** ** Documents and the context

    A document is the list of its lines, without their line breaks.
    [lineAt] throws on a line that does not exist. *)

Definition Document : Type := list string.

Definition lineCount (doc : Document) : Z := Z.of_nat (List.length doc).

Definition lineAt (doc : Document) (l : Z) : option string :=
  if l <? 0 then None else doc !! Z.to_nat l.

Definition textLength (t : string) : Z := Z.of_nat (String.length t).

Inductive SelectionBehavior : Type := Caret | Character.

Inductive Direction : Type := Backward | Forward.

Record Context : Type := mkContext
  { selectionBehavior : SelectionBehavior;
    document : Document }.

Definition isCharacter (b : SelectionBehavior) : bool :=
  match b with Character => true | Caret => false end.

(** ** selection.ts *)

(** [forward] and [backward] return the selection they are given or a new
    selection object, which lives at the reference [new]. *)
Definition forward (new : nat) (selection : Selection) : Selection :=
  let active := active selection in
  let anchor := anchor selection in
  if isAfterOrEqual active anchor then selection
  else mkSelection active anchor new.

Definition backward (new : nat) (selection : Selection) : Selection :=
  let active := active selection in
  let anchor := anchor selection in
  if isBeforeOrEqual active anchor then selection
  else mkSelection active anchor new.

Definition empty (new : nat) (position : Position) : Selection :=
  mkSelection position position new.

Definition endLine (selection : Selection) : Z :=
  let startLine := line (start selection) in
  let end' := end_ selection in
  let endLine := line end' in
  let endCharacter := character end' in
  if negb (startLine =? endLine) && (endCharacter =? 0)
  then endLine - 1
  else endLine.

Definition endCharacter (selection : Selection) (document : Document)
  : option Z :=
  let startLine := line (start selection) in
  let end' := end_ selection in
  let endLine := line end' in
  let endCharacter := character end' in
  if negb (startLine =? endLine) && (endCharacter =? 0)
  then t ← lineAt document (endLine - 1); Some (textLength t + 1)
  else Some endCharacter.

(** [endPosition] builds a new position object in its first branch; the
    caller supplies the reference [fresh] of the object that is built. *)
Definition endPosition (fresh : nat) (selection : Selection)
  (document : Document) : option Position :=
  let line' := endLine selection in
  if negb (line' =? line (end_ selection))
  then t ← lineAt document line'; Some (at_ line' (textLength t) fresh)
  else Some (end_ selection).

(** Modelled from the spec: [Positions.previous] and [Positions.next] of
    [src/api/positions.ts], which is not among the sources.  They move one
    character, crossing line boundaries, and return "no predecessor" or "no
    successor" at the start or end of the document.  The position they
    return is a new object, at the reference [fresh]. *)
Definition previous (fresh : nat) (position : Position) (doc : Document)
  : option Position :=
  if 0 <? character position
  then Some (at_ (line position) (character position - 1) fresh)
  else if line position <=? 0 then None
  else t ← lineAt doc (line position - 1);
       Some (at_ (line position - 1) (textLength t) fresh).

Definition next (fresh : nat) (position : Position) (doc : Document)
  : option Position :=
  t ← lineAt doc (line position);
  if character position <? textLength t
  then Some (at_ (line position) (character position + 1) fresh)
  else if line position =? lineCount doc - 1 then None
  else Some (at_ (line position + 1) 0 fresh).

(** [seekFrom(selection, direction, position = selection.active, context)]:
    an omitted [position] is [None].  [a ?? b] is [default b a]. *)
Definition seekFrom (fresh : nat) (selection : Selection)
  (direction : Direction) (position : option Position) (context : Context)
  : Position :=
  let position := default (active selection) position in
  if isCharacter (selectionBehavior context) then
    let doc := document context in
    match direction with
    | Forward =>
        if same_object position (start selection) then position
        else default position (previous fresh position doc)
    | Backward =>
        if same_object position (end_ selection) then position
        else default position (next fresh position doc)
    end
  else position.

(** [fromStartEnd] at two positions (the overload that takes offsets needs
    the document's [positionAt] and is used by [split] only); the selection
    object it builds lives at the reference [new]. *)
Definition fromStartEnd (new : nat) (start' end' : Position)
  (reversed : bool) : Selection :=
  if reversed then mkSelection end' start' new
  else mkSelection start' end' new.

(** ** selection.ts, the other functions *)

(** [Shift] of [src/api/types.ts], as the comment on [shift] names its
    three values. *)
Inductive Shift : Type := Jump | Select | Extend.

Definition isJump (shift : Shift) : bool :=
  match shift with Jump => true | _ => false end.

Definition overlap (a b : Selection) : bool :=
  let aStart := start a in
  let aEnd := end_ a in
  let bStart := start b in
  let bEnd := end_ b in
  negb ((line aEnd <? line bStart)
        || ((line aEnd =? line bEnd)
            && (character aEnd <? character bStart)))
  && negb ((line bEnd <? line aStart)
           || ((line bEnd =? line aEnd)
               && (character bEnd <? character aStart))).

Definition activeLine (selection : Selection) : Z :=
  if isReversed selection then line (active selection)
  else endLine selection.

Definition activeCharacter (selection : Selection) (document : Document)
  : option Z :=
  if isReversed selection then Some (character (active selection))
  else endCharacter selection document.

Definition activePosition (fresh : nat) (selection : Selection)
  (document : Document) : option Position :=
  if isReversed selection then Some (active selection)
  else endPosition fresh selection document.

Definition isSingleLine (selection : Selection) : bool :=
  line (start selection) =? endLine selection.

(** [isSingleCharacter] reads the document only in its second case, and
    there only when [end.character === 0]. *)
Definition isSingleCharacter (selection : Selection) (document : Document)
  : option bool :=
  let start' := start selection in
  let end' := end_ selection in
  if line start' =? line end'
  then Some (character start' =? character end' - 1)
  else if line start' =? line end' - 1
  then if character end' =? 0
       then t ← lineAt document (line start');
            Some (textLength t =? character start')
       else Some false
  else Some false.

Definition isNonDirectional (selection : Selection) (context : Context)
  : option bool :=
  if isCharacter (selectionBehavior context) && negb (isReversed selection)
  then isSingleCharacter selection (document context)
  else Some false.

Definition isStrictlyReversed (selection : Selection) (context : Context)
  : option bool :=
  if isEmpty selection || negb (isReversed selection) then Some false
  else b ← isNonDirectional selection context; Some (negb b).

(** [shift]; the position object that [seekFrom] may build lives at
    [fresh], the selection object that [shift] builds at [new]. *)
Definition shift (new fresh : nat) (selection : Selection)
  (position : Position) (shift' : Shift) (context : Context) : Selection :=
  let anchor' :=
    match shift' with
    | Jump => position
    | Select => active selection
    | Extend => anchor selection
    end in
  let anchor'' :=
    if isCharacter (selectionBehavior context) && negb (isJump shift')
    then
      let direction :=
        if isAfter anchor' position then Backward else Forward in
      seekFrom fresh selection direction (Some anchor') context
    else anchor' in
  mkSelection anchor'' position new.

Definition isEntireLine (selection : Selection) : bool :=
  let start' := start selection in
  let end' := end_ selection in
  (character start' =? 0) && (character end' =? 0)
  && (line start' =? line end' - 1).

Definition isEntireLines (selection : Selection) : bool :=
  let start' := start selection in
  let end' := end_ selection in
  (character start' =? 0) && (character end' =? 0)
  && negb (line start' =? line end').

Definition startsWithEntireLine (selection : Selection) : bool :=
  let start' := start selection in
  (character start' =? 0) && negb (line start' =? line (end_ selection)).

Definition endsWithEntireLine (selection : Selection) : bool :=
  let end' := end_ selection in
  (character end' =? 0)
  && ((line (start selection) <? line end' - 1)
      || ((line (start selection) =? line end' - 1)
          && (character (start selection) =? 0))).

Definition endsWithLineBreak (selection : Selection) : bool :=
  let end' := end_ selection in
  (character end' =? 0) && (line (start selection) <? line end').

Definition activeLineIsFullySelected (selection : Selection) : bool :=
  if same_object (active selection) (start selection)
  then startsWithEntireLine selection
  else endsWithEntireLine selection.

Definition isMovingTowardsAnchor (selection : Selection)
  (direction : Direction) : bool :=
  match direction with
  | Backward => same_object (active selection) (end_ selection)
  | Forward => same_object (active selection) (start selection)
  end.

(** [activeStart] and [activeEnd]; [None] also stands for the [undefined]
    that [Positions.previous] or [Positions.next] may return. *)
Definition activeStart (fresh : nat) (selection : Selection)
  (context : Context) : option Position :=
  let active' := active selection in
  if negb (isCharacter (selectionBehavior context)) then Some active'
  else
    let start' := start selection in
    single ← isSingleCharacter selection (document context);
    if (single : bool) then Some start'
    else if same_object active' start' then Some start'
    else previous fresh active' (document context).

Definition activeEnd (fresh : nat) (selection : Selection)
  (context : Context) : option Position :=
  let active' := active selection in
  if negb (isCharacter (selectionBehavior context)) then Some active'
  else
    let end' := end_ selection in
    single ← isSingleCharacter selection (document context);
    if (single : bool) then Some end'
    else if same_object active' end' then Some end'
    else next fresh active' (document context).

Definition activeTowards (fresh : nat) (selection : Selection)
  (direction : Direction) (context : Context) : option Position :=
  match direction with
  | Backward => activeStart fresh selection context
  | Forward => activeEnd fresh selection context
  end.

(** ** selections.ts *)

Module Selections.

(** The class [Selections]: its two private fields.  [primarySelection] is
    declared with [!] and can hold [undefined]. *)
Record t : Type := mk
  { primarySelection : option Selection;
    selections : list Selection }.

(** [Array.prototype.sort] with a comparator is stable; a stable sort is
    determined by its comparator, and is written here as insertion sort:
    an element moves in front of the later elements that do not compare
    below it. *)
Fixpoint insertSorted (x : Selection) (l : list Selection) : list Selection :=
  match l with
  | [] => [x]
  | y :: l' =>
      if compareTo (start y) (start x) <? 0
      then y :: insertSorted x l'
      else x :: l
  end.

Definition sortByStart (l : list Selection) : list Selection :=
  foldr (fun x acc => insertSorted x acc) [] l.

Definition sort (this : t) : t :=
  mk (primarySelection this) (sortByStart (selections this)).

(** [new Selections(selections, primarySelection = null)]. *)
Definition constructor (selections' : list Selection)
  (primarySelection' : option Selection) : t :=
  sort (mk (match primarySelection' with
            | Some p => Some p
            | None => selections' !! 0%nat
            end)
           selections').

(** JavaScript's [a === b] on two selection objects. *)
Definition same_selection (a b : Selection) : bool :=
  Nat.eqb (self a) (self b).

(** [array.indexOf(x)] from index [k] on: the first index that holds [x],
    or [-1].  No element of the array is [undefined]. *)
Fixpoint indexOfFrom (k : Z) (l : list Selection) (x : Selection) : Z :=
  match l with
  | [] => -1
  | y :: l' => if same_selection y x then k else indexOfFrom (k + 1) l' x
  end.

Definition indexOf (l : list Selection) (x : option Selection) : Z :=
  match x with
  | None => -1
  | Some s => indexOfFrom 0 l s
  end.

(** [array[k]] for a number [k]: [undefined] out of range. *)
Definition index (l : list Selection) (k : Z) : option Selection :=
  if k <? 0 then None else l !! Z.to_nat k.

(** [rotate(by)], for an amount [by] that is an integer.  The sum
    [primarySelectionIndex + by] is a sum of doubles.  JavaScript's [%] is
    the remainder that takes the sign of the dividend ([Z.rem]), and is
    exact; with a length of [0] it is [NaN], and indexing with [NaN] gives
    [undefined]. *)
Definition rotate (this : t) (by' : Z) : t :=
  let primarySelectionIndex :=
    indexOf (selections this) (primarySelection this) in
  let len := Z.of_nat (length (selections this)) in
  mk (if len =? 0 then None
      else index (selections this)
             (Z.rem (roundToDouble (primarySelectionIndex + by')) len))
     (selections this).

(** [setCurrent(context)]: the array written to [context.selections] and
    the position handed to [editor.revealRange]; [editorSelection] is
    [context.editor.selection]. *)
Definition setCurrent (this : t) (editorSelection : Selection)
  : list Selection * Position :=
  (selections this,
   active (default editorSelection (primarySelection this))).

(** *** The merge engine

    [MergeOptions] is the argument of the private method [merge]. *)
Record MergeOptions : Type := mkOptions
  { alsoMergeConsecutiveSelections : bool }.

(** The variables of the two loops of [merge]: [j] and the bounds of the
    selection under construction belong to the inner loop; the
    [Uint8Array] [ignoreSelections] and [newSelections] to the method. *)
Record Scan : Type := mkScan
  { j : nat;
    aStart : Position;
    aEnd : Position;
    aIsEmpty : bool;
    changed : bool;
    ignoreSelections : list Z;
    newSelections : option (list Selection) }.

(** [continue]: only [j++] runs. *)
Definition continue_ (st : Scan) : Scan :=
  mkScan (S (j st)) (aStart st) (aEnd st) (aIsEmpty st) (changed st)
         (ignoreSelections st) (newSelections st).

(** The end of the inner body, reached with new bounds: [changed = true],
    [ignoreSelections[j] = 1], and [j = i] before [j++]. *)
Definition absorbAndRestart (i : nat) (st : Scan) (aStart' aEnd' : Position)
  : Scan :=
  mkScan (S i) aStart' aEnd' (aIsEmpty st) true
         (<[j st := 1]> (ignoreSelections st)) (newSelections st).

(** One run of the body of the inner loop, at the selection [b] found at
    index [j]; [this] is the array [this.selections]. *)
Definition innerBody (options : MergeOptions) (this : list Selection)
  (i : nat) (b : Selection) (st : Scan) : Scan :=
  if decide (ignoreSelections st !! j st = Some 1) then continue_ st
  else
    let bStart := start b in
    let bEnd := end_ b in
    if aIsEmpty st then
      if isEqual bStart bEnd then
        if isEqual bStart (aStart st) then
          mkScan (S (j st)) (aStart st) (aEnd st) (aIsEmpty st) true
                 (<[j st := 1]> (ignoreSelections st)) (newSelections st)
        else continue_ st
      else if isBeforeOrEqual bStart (aStart st) && isAfterOrEqual bEnd bStart
      then
        mkScan (S (j st)) bStart bEnd false true
               (<[j st := 1]> (ignoreSelections st)) (newSelections st)
      else continue_ st
    else if isAfterOrEqual (aStart st) bStart
            && (isBefore (aStart st) bEnd
                || (alsoMergeConsecutiveSelections options
                    && isEqual (aStart st) bEnd))
    then
      if isBeforeOrEqual (aEnd st) bEnd then
        absorbAndRestart i st (start b) (end_ b)
      else if isEqual (aStart st) bStart then
        mkScan (S (j st)) (aStart st) (aEnd st) (aIsEmpty st) (changed st)
               (<[j st := 1]> (ignoreSelections st))
               (match newSelections st with
                | Some l => Some l
                | None => Some (take i this)
                end)
      else absorbAndRestart i st bStart (aEnd st)
    else if (isAfter (aEnd st) bStart
             || (alsoMergeConsecutiveSelections options
                 && isEqual (aEnd st) bStart))
            && isBeforeOrEqual (aEnd st) bEnd
    then absorbAndRestart i st (aStart st) bEnd
    else continue_ st.

(** The inner loop [for (let j = i + 1; j < len; j++)]: [this !! j] is
    [None] exactly when [j < len] fails.  The loop is not structural (the
    body moves [j] back), so it runs on [fuel]; [None] is "out of fuel". *)
Fixpoint innerLoop (fuel : nat) (options : MergeOptions)
  (this : list Selection) (i : nat) (st : Scan) : option Scan :=
  match this !! j st with
  | None => Some st
  | Some b =>
      match fuel with
      | O => None
      | S fuel' =>
          innerLoop fuel' options this i (innerBody options this i b st)
      end
  end.

(** The body of the outer loop at index [i]; the state that survives an
    iteration is [ignoreSelections] and [newSelections].  An iteration
    builds at most one selection object, the one it pushes; the object built
    by the iteration [i] lives at the reference [new i]. *)
Definition outerBody (new : nat -> nat) (fuel : nat) (options : MergeOptions)
  (this : list Selection) (i : nat)
  (acc : list Z * option (list Selection))
  : option (list Z * option (list Selection)) :=
  if decide (acc.1 !! i = Some 1) then Some acc
  else
    match this !! i with
    | None => Some acc
    | Some a =>
        st ← innerLoop fuel options this i
               (mkScan (S i) (start a) (end_ a)
                       (isEqual (start a) (end_ a)) false acc.1 acc.2);
        Some (ignoreSelections st,
              if changed st then
                Some (default (take i this) (newSelections st)
                      ++ [fromStartEnd (new i) (aStart st) (aEnd st)
                            (isReversed a)])
              else
                match newSelections st with
                | Some l => Some (l ++ [a])
                | None => None
                end)
    end.

(** [for (let i = 0; i < len; i++)], as [n] iterations from [i]. *)
Fixpoint outerLoop (new : nat -> nat) (n : nat) (fuel : nat)
  (options : MergeOptions) (this : list Selection) (i : nat)
  (acc : list Z * option (list Selection))
  : option (list Z * option (list Selection)) :=
  match n with
  | O => Some acc
  | S n' =>
      acc' ← outerBody new fuel options this i acc;
      outerLoop new n' fuel options this (S i) acc'
  end.

(** Fuel for one inner loop over [len] selections: every run of the body
    either advances [j] or marks one more selection as ignored. *)
Definition innerFuel (len : nat) : nat := (S len * S len)%nat.

Definition merge (new : nat -> nat) (options : MergeOptions) (this : t)
  : option t :=
  let len := length (selections this) in
  acc ← outerLoop new len (innerFuel len) options (selections this) 0%nat
          (replicate len 0, None);
  Some (mk (primarySelection this) (default (selections this) acc.2)).

Definition mergeOverlapping (new : nat -> nat) (this : t) : option t :=
  merge new (mkOptions false) this.

Definition mergeConsecutive (new : nat -> nat) (this : t) : option t :=
  merge new (mkOptions true) this.

(** [array.indexOf(x) === -1] on an array of numbers. *)
Definition absent (x : Z) (l : list Z) : bool := negb (existsb (Z.eqb x) l).

(** One iteration of the loop of [lines] over the selections; the inner
    loop pushes [startLine + 1], ..., [endLine_ - 1]. *)
Definition linesBody (lines' : list Z) (selection : Selection) : list Z :=
  let startLine := line (start selection) in
  let endLine_ := endLine selection in
  let l1 := if absent startLine lines' then lines' ++ [startLine]
            else lines' in
  let l2 := l1 ++ seqZ (startLine + 1) (endLine_ - startLine - 1) in
  if negb (endLine_ =? startLine) && absent endLine_ l2
  then l2 ++ [endLine_]
  else l2.

Definition lines (this : t) : list Z :=
  foldl linesBody [] (selections this).

(** [nth(index)]. *)
Definition nth (this : t) (index' : Z) : option Selection :=
  index (selections this) index'.

(** [shiftEmptyLeft(selections, document)], which writes into the array it
    is given; the result is the array after the call.  The position built
    for the selection of index [i] lives at the reference [fresh i], the
    selection built there at [new i]. *)
Definition shiftEmptyLeft (new fresh : nat -> nat)
  (selections' : list Selection) (document : Document) : list Selection :=
  imap (fun i selection =>
          if isEmpty selection then
            match previous (fresh i) (active selection) document with
            | Some newPosition => empty (new i) newPosition
            | None => selection
            end
          else selection)
       selections'.

End Selections.

(** ** Concrete documents and selections used by the examples *)

Module Examples.

(** The one-line document ["abcd"] and the two-line document ["abc"/"def"]. *)
Definition abcd : Document := ["abcd"%string].
Definition abc_def : Document := ["abc"%string; "def"%string].

(** The forward selection [(l1,c1)-(l2,c2)], an object at the reference
    [r]; its two position objects live at the references [2 * r] and
    [2 * r + 1]. *)
Definition range (r : nat) (l1 c1 l2 c2 : Z) : Selection :=
  mkSelection (at_ l1 c1 (2 * r)%nat) (at_ l2 c2 (2 * r + 1)%nat) r.

(** The empty selection at [(l,c)], built by [empty] from one object. *)
Definition caret (r : nat) (l c : Z) : Selection :=
  empty r (at_ l c (2 * r)%nat).

(** References for the selection objects that a call builds: the object of
    the iteration [i] lives at [100 + i], away from the examples' own. *)
Definition built (i : nat) : nat := (100 + i)%nat.

(** The forward selection [(0,0)-(0,4)] that the first iteration of a merge
    builds from the start of [range 0 0 0 _ _] and the end of
    [range 1 _ _ 0 4]. *)
Definition merged04 : Selection :=
  mkSelection (at_ 0 0 0) (at_ 0 4 3) (built 0).

Definition characterMode (doc : Document) : Context :=
  mkContext Character doc.

End Examples.

(** ** Notions used to state and prove the properties *)

(** The bounds of the selection under construction are in order, and
    strictly so once it is known not to be empty. *)
Definition boundsInOrder (st : Selections.Scan) : Prop :=
  if Selections.aIsEmpty st
  then isEqual (Selections.aStart st) (Selections.aEnd st) = true
  else isBefore (Selections.aStart st) (Selections.aEnd st) = true.

(** The number of selections that are not yet ignored. *)
Definition pending (ignore : list Z) : nat :=
  length (filter (fun x => x <> 1) ignore).

(** What is left of an inner loop over [len] selections: every selection
    still pending may cost a whole new pass. *)
Definition remaining (len : nat) (st : Selections.Scan) : nat :=
  (pending (Selections.ignoreSelections st) * S len
   + (len - Selections.j st))%nat.

(** The state in which the inner loop starts at the selection [a] of
    index [i]. *)
Definition scanFrom (i : nat) (a : Selection)
  (acc : list Z * option (list Selection)) : Selections.Scan :=
  Selections.mkScan (S i) (start a) (end_ a) (isEqual (start a) (end_ a))
                    false acc.1 acc.2.

(** [o] is what the iteration of [merge] with left operand [a], the
    selection of index [i], contributes to the result: [a] itself, or the
    selection built from the bounds the inner loop ends with after it has
    merged other selections into [a] ([changed]). *)
Definition producedAt (new : nat -> nat)
  (options : Selections.MergeOptions) (this : list Selection) (i : nat)
  (a o : Selection) : Prop :=
  this !! i = Some a
  /\ (o = a
      \/ exists acc st,
           Selections.innerLoop (Selections.innerFuel (length this)) options
             this i (scanFrom i a acc) = Some st
           /\ Selections.changed st = true
           /\ o = fromStartEnd (new i) (Selections.aStart st)
                   (Selections.aEnd st) (isReversed a)).

(** [o] comes from a left operand of the scan and has its direction. *)
Definition keepsLeftDirection (new : nat -> nat)
  (options : Selections.MergeOptions)
  (this : list Selection) (o : Selection) : Prop :=
  exists i a, producedAt new options this i a o /\ isReversed o = isReversed a.

(** The state of the outer loop of [merge] when it reaches the index [i]:
    [ignoreSelections] and [newSelections] after the iterations before
    [i]. *)
Definition stateAt (new : nat -> nat) (options : Selections.MergeOptions)
  (this : list Selection) (i : nat)
  : option (list Z * option (list Selection)) :=
  Selections.outerLoop new i (Selections.innerFuel (length this)) options
    this 0 (replicate (length this) 0, None).

(** The selection of index [i] is a left operand of the scan: the outer
    loop finds it not marked, so that its iteration scans the selections
    after it (the first test of the outer body). *)
Definition isLeftOperand (new : nat -> nat)
  (options : Selections.MergeOptions) (this : list Selection) (i : nat)
  : bool :=
  match stateAt new options this i with
  | Some acc => bool_decide (acc.1 !! i <> Some 1)
  | None => false
  end.

(** The indices of the left operands, in the order of the scan. *)
Definition leftOperands (new : nat -> nat)
  (options : Selections.MergeOptions) (this : list Selection) : list nat :=
  filter (fun i => isLeftOperand new options this i = true)
         (seq 0 (length this)).

(** [o] is the selection that [merge] returns for the left operand [a] of
    index [i]: the outer loop reaches [i] in the state [acc] with [a] not
    marked, and the scan from [a] ends in the state [st].  The selections
    merged into [a] are those the scan marks; all of them come after [a].
    [o] is [a] itself when the scan has changed nothing, and else the
    selection built from the bounds the scan ends with; it has the
    direction of [a]. *)
Definition mergedAt (new : nat -> nat) (options : Selections.MergeOptions)
  (this : list Selection) (i : nat) (o : Selection) : Prop :=
  exists a acc st,
    this !! i = Some a
    /\ stateAt new options this i = Some acc
    /\ acc.1 !! i <> Some 1
    /\ Selections.innerLoop (Selections.innerFuel (length this)) options
         this i (scanFrom i a acc) = Some st
    /\ (forall k, Selections.ignoreSelections st !! k = Some 1 ->
                  acc.1 !! k <> Some 1 -> (i < k)%nat)
    /\ o = (if Selections.changed st
            then fromStartEnd (new i) (Selections.aStart st)
                   (Selections.aEnd st) (isReversed a)
            else a)
    /\ isReversed o = isReversed a.

(** What the outer loop has established before the iteration [i] about the
    array it is building (the new array, or the selections before [i] while
    there is none): it holds, in order, the selections of the left operands
    before [i]; and without a new array nothing is marked. *)
Definition leftOperandsSoFar (new : nat -> nat)
  (options : Selections.MergeOptions) (this : list Selection) (i : nat)
  (acc : list Z * option (list Selection)) : Prop :=
  Forall2 (mergedAt new options this)
          (filter (fun k => isLeftOperand new options this k = true)
                  (seq 0 i))
          (default (take i this) acc.2)
  /\ (acc.2 = None -> forall k, acc.1 !! k <> Some 1).

(** The order in which [sort] leaves two selections: by start. *)
Definition startsNotAfter (a b : Selection) : Prop :=
  isBeforeOrEqual (start a) (start b) = true.

(** No selection object occurs at two indices of the array. *)
Definition distinctObjects (l : list Selection) : Prop :=
  forall (i k : nat) (a b : Selection),
    l !! i = Some a -> l !! k = Some b ->
    Selections.same_selection a b = true -> i = k.

(** The lines of [a] end where the lines of [b] start, or before. *)
Definition linesNotAfter (a b : Selection) : Prop :=
  endLine a <= line (start b).

(** Once [newSelections] exists, at least one iteration of the outer loop
    has run, and it holds between one selection and one per iteration. *)
Definition sizeInvariant (i : nat)
  (acc : list Z * option (list Selection)) : Prop :=
  forall l, acc.2 = Some l ->
            (0 < i)%nat /\ (0 < length l)%nat /\ (length l <= i)%nat.

(** [a] ends strictly before [b] starts. *)
Definition strictlyBefore (a b : Selection) : Prop :=
  isBefore (end_ a) (start b) = true.

(** [p] is the start or the end of a selection of the array. *)
Definition endpointOf (this : list Selection) (p : Position) : Prop :=
  exists s, s ∈ this /\ (p = start s \/ p = end_ s).

(** [o] stands for the selection [s] after a merge: it starts where [s]
    starts, ends where [s] ends or later, and faces the same way. *)
Definition extends (o s : Selection) : Prop :=
  isEqual (start o) (start s) = true
  /\ isBeforeOrEqual (end_ s) (end_ o) = true
  /\ isReversed o = isReversed s.

(** The span of [s] lies within the span of [o]. *)
Definition covers (o s : Selection) : Prop :=
  isBeforeOrEqual (start o) (start s) = true
  /\ isBeforeOrEqual (end_ s) (end_ o) = true.

(** The bounds of the selection under construction enclose [s]. *)
Definition within (st : Selections.Scan) (s : Selection) : Prop :=
  isBeforeOrEqual (Selections.aStart st) (start s) = true
  /\ isBeforeOrEqual (end_ s) (Selections.aEnd st) = true.

(** What the scan from the selection [a], started on the state [acc], has
    established so far: the bounds enclose [a] and every selection marked
    since the start; while nothing has changed, the bounds are those of
    [a], and while there is also no new array, nothing was marked. *)
Definition coverInvariant (this : list Selection) (i : nat) (a : Selection)
  (acc : list Z * option (list Selection)) (st : Selections.Scan) : Prop :=
  within st a
  /\ (forall k s, this !! k = Some s ->
                  Selections.ignoreSelections st !! k = Some 1 ->
                  acc.1 !! k = Some 1 \/ within st s)
  /\ (Selections.changed st = false ->
      Selections.aStart st = start a /\ Selections.aEnd st = end_ a)
  /\ (Selections.changed st = false ->
      Selections.newSelections st = None ->
      Selections.ignoreSelections st = acc.1)
  /\ (Selections.newSelections st = acc.2
      \/ (acc.2 = None
          /\ Selections.newSelections st = Some (take i this))).

(** What the outer loop has established before the iteration [i]: without
    a new array nothing is marked; with one, every selection before [i] and
    every marked selection is enclosed by a selection of the new array. *)
Definition coveredSoFar (this : list Selection) (i : nat)
  (acc : list Z * option (list Selection)) : Prop :=
  (acc.2 = None -> forall k, acc.1 !! k <> Some 1)
  /\ (forall l, acc.2 = Some l ->
        forall k s, this !! k = Some s ->
                    (k < i)%nat \/ acc.1 !! k = Some 1 ->
                    exists o, o ∈ l /\ covers o s).

(** The tests of the inner body of [merge], for the bounds [s], [e] of the
    selection under construction ([em]: it is empty) against a selection
    with the bounds [bs], [be]: whether the body does anything else than
    step over that selection. *)
Definition triggers (options : Selections.MergeOptions) (s e : Position)
  (em : bool) (bs be : Position) : bool :=
  if em then
    if isEqual bs be then isEqual bs s
    else isBeforeOrEqual bs s && isAfterOrEqual be bs
  else
    (isAfterOrEqual s bs
     && (isBefore s be
         || (Selections.alsoMergeConsecutiveSelections options
             && isEqual s be)))
    || ((isAfter e bs
         || (Selections.alsoMergeConsecutiveSelections options
             && isEqual e bs))
        && isBeforeOrEqual e be).

(** A scan that starts from the selection [o] steps over the bounds [bs],
    [be]. *)
Definition quietAt (options : Selections.MergeOptions) (o : Selection)
  (bs be : Position) : Prop :=
  triggers options (start o) (end_ o) (isEqual (start o) (end_ o)) bs be
  = false.

(** A scan that starts from [o] steps over the selection [c]. *)
Definition quiet (options : Selections.MergeOptions) (o c : Selection)
  : Prop :=
  quietAt options o (start c) (end_ c).

(** The scan from index [i] steps over every selection between [i] and
    [j] that is not marked. *)
Definition stableBefore (options : Selections.MergeOptions)
  (this : list Selection) (i : nat) (st : Selections.Scan) : Prop :=
  forall k c, (i < k < Selections.j st)%nat -> this !! k = Some c ->
              Selections.ignoreSelections st !! k <> Some 1 ->
              triggers options (Selections.aStart st) (Selections.aEnd st)
                       (Selections.aIsEmpty st) (start c) (end_ c) = false.

(** What the outer loop has established before the iteration [i], on a
    sorted array, about the array [V] it is building (the new array, or the
    selections before [i] while there is none): the scan from a selection
    of [V] steps over the selections of [V] after it and over the
    selections from [i] on that are not marked, all of which start at or
    after it. *)
Definition quietSoFar (options : Selections.MergeOptions)
  (this : list Selection) (i : nat)
  (acc : list Z * option (list Selection)) : Prop :=
  let V := default (take i this) acc.2 in
  StronglySorted (quiet options) V
  /\ (forall o k c, o ∈ V -> (i <= k)%nat -> this !! k = Some c ->
                    acc.1 !! k <> Some 1 -> quiet options o c)
  /\ (forall o k c, o ∈ V -> (i <= k)%nat -> this !! k = Some c ->
                    startsNotAfter o c)
  /\ (acc.2 = None -> forall k, acc.1 !! k <> Some 1)
  /\ length acc.1 = length this.

(** [p] is a position of the document as far as its column goes: not
    negative and not beyond the end of its line. *)
Definition validColumn (doc : Document) (p : Position) : Prop :=
  0 <= character p
  /\ forall t, lineAt doc (line p) = Some t -> character p <= textLength t.

(** Whether the spans [[start, end)] of two selections intersect. *)
Definition spansIntersect (a b : Selection) : bool :=
  isBefore (start a) (end_ b) && isBefore (start b) (end_ a)
  && isBefore (start a) (end_ a) && isBefore (start b) (end_ b).

(** * Properties *)

(** ** The order on positions *)

Ltac order_cases :=
  repeat match goal with
    | |- context [ (?x <? ?y)%Z ] => destruct (Z.ltb_spec x y)
    | |- context [ (?x <=? ?y)%Z ] => destruct (Z.leb_spec x y)
    | |- context [ (?x =? ?y)%Z ] => destruct (Z.eqb_spec x y)
    | H : context [ (?x <? ?y)%Z ] |- _ => destruct (Z.ltb_spec x y)
    | H : context [ (?x <=? ?y)%Z ] |- _ => destruct (Z.leb_spec x y)
    | H : context [ (?x =? ?y)%Z ] |- _ => destruct (Z.eqb_spec x y)
    end.

Ltac order :=
  unfold isAfter, isAfterOrEqual, isBeforeOrEqual, isBefore, isEqual in *;
  simpl in *; order_cases; simpl in *;
  try discriminate; try congruence; try lia.

Lemma start_before_end (s : Selection) :
  isBeforeOrEqual (start s) (end_ s) = true.
Proof.
  unfold start, end_.
  destruct (isBefore (anchor s) (active s)) eqn:E; order.
Qed.

(** ** selection.ts *)

(** C10: [forward] and [backward] return the selection itself or a new
    selection with anchor and active swapped, and in both cases the start
    and the end are the same position objects as before. *)
Theorem forward_backward_keep_endpoints (new : nat) (s : Selection) :
  (forward new s = s
   \/ forward new s = mkSelection (active s) (anchor s) new)
  /\ (backward new s = s
      \/ backward new s = mkSelection (active s) (anchor s) new)
  /\ start (forward new s) = start s /\ end_ (forward new s) = end_ s
  /\ start (backward new s) = start s /\ end_ (backward new s) = end_ s.
Proof.
  unfold forward, backward.
  destruct (isAfterOrEqual (active s) (anchor s)) eqn:F;
    destruct (isBeforeOrEqual (active s) (anchor s)) eqn:B;
    repeat split; auto; unfold start, end_; simpl;
    destruct (isBefore (anchor s) (active s)) eqn:E1;
    destruct (isBefore (active s) (anchor s)) eqn:E2;
    try reflexivity; exfalso; order.
Qed.

(** C6: [endLine] is [start.line] for a selection on one line; for a
    selection over several lines whose end is at column [0] it is
    [end.line - 1], and [endCharacter] is then the length of that line plus
    one; in every other case they are [end.line] and [end.character].  On
    the document ["abc"/"def"] the selection [(0,0)-(1,0)] has [endLine] 0,
    [endCharacter] 4 and [endPosition] (0,3). *)
Theorem endLine_endCharacter_spec (s : Selection) (doc : Document) :
  (line (start s) = line (end_ s) -> endLine s = line (start s))
  /\ (line (start s) <> line (end_ s) -> character (end_ s) = 0 ->
      endLine s = line (end_ s) - 1
      /\ forall t, lineAt doc (line (end_ s) - 1) = Some t ->
                   endCharacter s doc = Some (textLength t + 1))
  /\ (~ (line (start s) <> line (end_ s) /\ character (end_ s) = 0) ->
      endLine s = line (end_ s)
      /\ endCharacter s doc = Some (character (end_ s)))
  /\ (let whole := Examples.range 0 0 0 1 0 in
      endLine whole = 0
      /\ endCharacter whole Examples.abc_def = Some 4
      /\ forall fresh,
           endPosition fresh whole Examples.abc_def = Some (at_ 0 3 fresh)).
Proof.
  unfold endLine, endCharacter.
  split; [|split; [|split]].
  - intros E. rewrite E, Z.eqb_refl. reflexivity.
  - intros N C0.
    apply Z.eqb_neq in N. rewrite N, C0. simpl.
    split; [reflexivity|]. intros t Ht. rewrite Ht. reflexivity.
  - intros N.
    destruct (Z.eqb_spec (line (start s)) (line (end_ s))) as [E|E]; simpl.
    + rewrite <- E. auto.
    + destruct (Z.eqb_spec (character (end_ s)) 0) as [C0|C0]; auto.
      exfalso. apply N. auto.
  - simpl. repeat split.
Qed.

Lemma endLine_endCharacter_spec_witness :
  let whole := Examples.range 0 0 0 1 0 in
  endLine whole = line (end_ whole) - 1
  /\ endCharacter whole Examples.abc_def = Some (textLength "abc" + 1).
Proof.
  intros whole.
  destruct (endLine_endCharacter_spec whole Examples.abc_def)
    as (_ & Hshift & _ & _).
  destruct Hshift as [Hl Hc].
  - simpl. lia.
  - reflexivity.
  - split; [exact Hl|]. apply Hc. reflexivity.
Defined.

(** C8, as stated, fails: in character mode a forward seek from a reference
    that is not the start of the selection does not return the position one
    character further forward.  On ["abcd"], from the active position (0,2)
    of [(0,0)-(0,2)], it returns (0,1), not (0,3). *)
Lemma seekFrom_not_one_further_forward :
  ~ (forall (fresh : nat) (s : Selection) (ctx : Context) (q : Position),
        selectionBehavior ctx = Character ->
        same_object (active s) (start s) = false ->
        next fresh (active s) (document ctx) = Some q ->
        seekFrom fresh s Forward None ctx = q).
Proof.
  intros H.
  specialize (H 9%nat (Examples.range 0 0 0 0 2)
                (Examples.characterMode Examples.abcd) (at_ 0 3 9)
                eq_refl eq_refl eq_refl).
  discriminate H.
Qed.

(** C8, amended: in character mode [seekFrom] returns the reference (by
    default the active position) itself when it is the very object
    [selection.start] on a forward seek or [selection.end] on a backward
    seek; otherwise it returns the position one character against the
    direction ([previous] on a forward seek, [next] on a backward seek), or
    the reference when the document has no such position: inside a line,
    the column before the reference on a forward seek and the column after
    it on a backward seek.  In caret mode it returns the reference. *)
Theorem seekFrom_spec (fresh : nat) (s : Selection) (d : Direction)
  (position : option Position) (ctx : Context) :
  let p := default (active s) position in
  (selectionBehavior ctx = Caret -> seekFrom fresh s d position ctx = p)
  /\ (selectionBehavior ctx = Character ->
      (d = Forward -> same_object p (start s) = true ->
       seekFrom fresh s d position ctx = p)
      /\ (d = Backward -> same_object p (end_ s) = true ->
          seekFrom fresh s d position ctx = p)
      /\ (d = Forward -> same_object p (start s) = false ->
          seekFrom fresh s d position ctx
          = default p (previous fresh p (document ctx)))
      /\ (d = Backward -> same_object p (end_ s) = false ->
          seekFrom fresh s d position ctx
          = default p (next fresh p (document ctx)))
      /\ (d = Forward -> same_object p (start s) = false ->
          0 < character p ->
          seekFrom fresh s d position ctx
          = at_ (line p) (character p - 1) fresh)
      /\ (d = Backward -> same_object p (end_ s) = false ->
          forall t, lineAt (document ctx) (line p) = Some t ->
                    character p < textLength t ->
                    seekFrom fresh s d position ctx
                    = at_ (line p) (character p + 1) fresh)).
Proof.
  intros p. unfold seekFrom. fold p.
  split.
  - intros ->. reflexivity.
  - intros ->. simpl.
    repeat split; intros -> ->; try reflexivity.
    + intros Hc. unfold previous.
      apply Z.ltb_lt in Hc. rewrite Hc. reflexivity.
    + intros t Ht Hc. unfold next. rewrite Ht. simpl.
      apply Z.ltb_lt in Hc. rewrite Hc. reflexivity.
Qed.

Lemma seekFrom_spec_witness :
  seekFrom 9 (Examples.range 0 0 0 0 2) Forward None
           (Examples.characterMode Examples.abcd) = at_ 0 1 9.
Proof.
  destruct (seekFrom_spec 9 (Examples.range 0 0 0 0 2) Forward None
              (Examples.characterMode Examples.abcd))
    as (_ & Hchar).
  destruct (Hchar eq_refl) as (_ & _ & _ & _ & Hprev & _).
  apply Hprev; [reflexivity|reflexivity|simpl; lia].
Defined.

(** ** selections.ts: construction and rotation *)

(** C9: the constructor accepts an array without elements: it returns a
    collection with no selection and an undefined primary selection, and
    [setCurrent] then reveals the editor's own selection in its place. *)
Theorem constructor_accepts_empty (editorSelection : Selection) :
  Selections.constructor [] None = Selections.mk None []
  /\ Selections.setCurrent (Selections.constructor [] None) editorSelection
     = ([], active editorSelection).
Proof. split; reflexivity. Qed.

(** C7: on three selections with the first one primary, [rotate(-2)] leaves
    the primary selection undefined (the index is [-2]), and the rotation by
    [3 - (-2 mod 3)] that follows makes the second selection primary, not
    the first. *)
Theorem rotate_negative_loses_primary :
  let s0 := Examples.range 0 0 0 0 1 in
  let s1 := Examples.range 1 0 2 0 3 in
  let s2 := Examples.range 2 0 4 0 5 in
  let c := Selections.constructor [s0; s1; s2] None in
  Selections.selections c = [s0; s1; s2]
  /\ Selections.primarySelection c = Some s0
  /\ Selections.primarySelection (Selections.rotate c (-2)) = None
  /\ Selections.primarySelection
       (Selections.rotate (Selections.rotate c (-2)) (3 - (-2) mod 3))
     = Some s1.
Proof. repeat split; vm_compute; reflexivity. Qed.

(** Below [2 ^ 53] in absolute value a sum is exact. *)
Lemma roundToDouble_exact (z : Z) :
  Z.abs z < 2 ^ 53 -> roundToDouble z = z.
Proof.
  intros H. unfold roundToDouble.
  destruct (Z.ltb_spec (Z.abs z) (2 ^ 53)); [reflexivity|lia].
Qed.

(** Where the sum of the current index and the amount is not negative and
    below [2 ^ 53], [rotate] does move the primary selection to that sum
    modulo the number of selections. *)
Lemma rotate_nonnegative (this : Selections.t) (by' : Z) :
  Selections.selections this <> [] ->
  let current :=
    Selections.indexOf (Selections.selections this)
                       (Selections.primarySelection this) in
  let count := Z.of_nat (length (Selections.selections this)) in
  0 <= current + by' < 2 ^ 53 ->
  Selections.primarySelection (Selections.rotate this by')
  = Selections.selections this !! Z.to_nat ((current + by') mod count).
Proof.
  intros Hne current count Hsum.
  unfold Selections.rotate. fold current. fold count. cbv zeta.
  rewrite roundToDouble_exact by lia. simpl.
  assert (Hcount : 0 < count).
  { unfold count. destruct (Selections.selections this);
      [congruence|simpl; lia]. }
  destruct (Z.eqb_spec count 0); [lia|].
  rewrite Z.rem_mod_nonneg by lia.
  unfold Selections.index.
  destruct (Z.ltb_spec ((current + by') mod count) 0); [|reflexivity].
  pose proof (Z.mod_pos_bound (current + by') count Hcount). lia.
Qed.

(** ** selections.ts: the merge engine at concrete collections *)

(** C1: on the sorted collection [(0,0)-(0,3)], [(0,1)-(0,2)] the second
    selection lies strictly inside the first; [mergeOverlapping] returns
    both selections as they are, although their spans intersect. *)
Theorem mergeOverlapping_keeps_inner_selection (new : nat -> nat) :
  let outer := Examples.range 0 0 0 0 3 in
  let inner := Examples.range 1 0 1 0 2 in
  let c := Selections.constructor [outer; inner] None in
  Selections.selections c = [outer; inner]
  /\ Selections.mergeOverlapping new c = Some c
  /\ outer <> inner
  /\ spansIntersect outer inner = true.
Proof. repeat split; vm_compute; (reflexivity || discriminate). Qed.

(** C2: on the array [(0,0)-(0,0)], [(0,1)-(0,2)], [(0,0)-(0,2)] (in the
    order an operation that does not sort, such as [selectWithin], can
    leave it) [mergeOverlapping] returns two selections, and applied to
    these it returns one. *)
Theorem mergeOverlapping_twice_differs (new new' : nat -> nat) :
  let c :=
    Selections.mk None
      [Examples.caret 0 0 0; Examples.range 1 0 1 0 2;
       Examples.range 2 0 0 0 2] in
  let once :=
    [mkSelection (at_ 0 2 5) (at_ 0 0 4) (new 0%nat);
     Examples.range 1 0 1 0 2] in
  let twice := [mkSelection (at_ 0 2 3) (at_ 0 0 4) (new' 0%nat)] in
  Selections.mergeOverlapping new c = Some (Selections.mk None once)
  /\ Selections.mergeOverlapping new' (Selections.mk None once)
     = Some (Selections.mk None twice)
  /\ once <> twice.
Proof. repeat split; vm_compute; (reflexivity || discriminate). Qed.

(** C3: an empty selection at (0,2) that follows the selection
    [(0,0)-(0,4)] lies inside its span and is not absorbed, with either
    entry point; an empty selection at (0,5) that precedes [(0,0)-(0,2)]
    lies outside its span and is absorbed. *)
Theorem merge_empty_selection_cases (new : nat -> nat) :
  let wide := Examples.range 0 0 0 0 4 in
  let inside := Examples.caret 1 0 2 in
  let c := Selections.constructor [wide; inside] None in
  let after := Examples.caret 0 0 5 in
  let short := Examples.range 1 0 0 0 2 in
  Selections.selections c = [wide; inside]
  /\ Selections.mergeOverlapping new c = Some c
  /\ Selections.mergeConsecutive new c = Some c
  /\ Selections.mergeOverlapping new (Selections.mk None [after; short])
     = Some (Selections.mk None
               [mkSelection (end_ short) (start short) (new 0%nat)]).
Proof. repeat split; vm_compute; reflexivity. Qed.

(** C4: on the sorted collection [(0,0)-(0,1)], [(0,1)-(0,3)],
    [(0,1)-(0,2)], [mergeOverlapping] merges the second and third
    selections (the third one disappears into the second), while
    [mergeConsecutive] merges the first two and returns the third one on
    its own. *)
Theorem mergeConsecutive_misses_overlapping_pair (new : nat -> nat) :
  let s0 := Examples.range 0 0 0 0 1 in
  let s1 := Examples.range 1 0 1 0 3 in
  let s2 := Examples.range 2 0 1 0 2 in
  let c := Selections.constructor [s0; s1; s2] None in
  Selections.selections c = [s0; s1; s2]
  /\ Selections.mergeOverlapping new c
     = Some (Selections.mk (Some s0) [s0; s1])
  /\ Selections.mergeConsecutive new c
     = Some (Selections.mk (Some s0)
               [mkSelection (start s0) (end_ s1) (new 0%nat); s2]).
Proof. repeat split; vm_compute; reflexivity. Qed.

(** The scenario of the consecutive merge: on ["abcd"], with [(0,0)-(0,2)]
    and [(0,2)-(0,4)], [mergeOverlapping] returns the collection as it is
    and [mergeConsecutive] returns the single selection [(0,0)-(0,4)]. *)
Lemma consecutive_merge_scenario (new : nat -> nat) :
  let s0 := Examples.range 0 0 0 0 2 in
  let s1 := Examples.range 1 0 2 0 4 in
  let c := Selections.constructor [s0; s1] None in
  Selections.mergeOverlapping new c = Some c
  /\ Selections.mergeConsecutive new c
     = Some (Selections.mk (Some s0)
               [mkSelection (start s0) (end_ s1) (new 0%nat)]).
Proof. split; vm_compute; reflexivity. Qed.

(** ** selections.ts: the merge engine, for every collection *)

Section MergeInvariants.

Import Selections.

Variable new : nat -> nat.
Variable options : MergeOptions.
Variable this : list Selection.
Variable i : nat.

Lemma innerBody_boundsInOrder (b : Selection) (st : Scan) :
  boundsInOrder st -> boundsInOrder (innerBody options this i b st).
Proof.
  unfold boundsInOrder, innerBody. intros H.
  pose proof (start_before_end b) as Hb.
  destruct (decide (ignoreSelections st !! j st = Some 1)); [exact H|].
  destruct (aIsEmpty st) eqn:Ee.
  - destruct (isEqual (start b) (end_ b)) eqn:E1.
    + destruct (isEqual (start b) (aStart st)); simpl; rewrite ?Ee; exact H.
    + destruct (isBeforeOrEqual (start b) (aStart st)
                && isAfterOrEqual (end_ b) (start b)); simpl.
      * clear H. order.
      * rewrite ?Ee. exact H.
  - destruct (isAfterOrEqual (aStart st) (start b)
              && (isBefore (aStart st) (end_ b)
                  || alsoMergeConsecutiveSelections options
                     && isEqual (aStart st) (end_ b))) eqn:C1.
    + apply andb_true_iff in C1 as [C1a _].
      destruct (isBeforeOrEqual (aEnd st) (end_ b)) eqn:C2; simpl.
      * rewrite ?Ee. clear Hb. order.
      * destruct (isEqual (aStart st) (start b)); simpl; rewrite ?Ee.
        -- exact H.
        -- clear Hb C2. order.
    + destruct ((isAfter (aEnd st) (start b)
                 || alsoMergeConsecutiveSelections options
                    && isEqual (aEnd st) (start b))
                && isBeforeOrEqual (aEnd st) (end_ b)) eqn:C2; simpl.
      * rewrite ?Ee. apply andb_true_iff in C2 as [_ C2].
        clear Hb C1. order.
      * rewrite ?Ee. exact H.
Qed.

Lemma innerBody_stays_nonempty (b : Selection) (st : Scan) :
  aIsEmpty st = false -> aIsEmpty (innerBody options this i b st) = false.
Proof.
  unfold innerBody. intros H. rewrite H.
  repeat match goal with
         | |- context [ if ?c then _ else _ ] => destruct c
         end; simpl; rewrite ?H; reflexivity.
Qed.

Lemma innerLoop_invariant (fuel : nat) (st st' : Scan) :
  innerLoop fuel options this i st = Some st' ->
  boundsInOrder st ->
  boundsInOrder st' /\ (aIsEmpty st = false -> aIsEmpty st' = false).
Proof.
  revert st. induction fuel as [|fuel IH]; intros st; simpl.
  - destruct (this !! j st); [discriminate|].
    intros [= <-]; auto.
  - destruct (this !! j st) as [b|].
    + intros Hrun Hst.
      destruct (IH _ Hrun (innerBody_boundsInOrder b st Hst)) as [H1 H2].
      split; [exact H1|].
      intros He. apply H2, innerBody_stays_nonempty, He.
    + intros [= <-]; auto.
Qed.

End MergeInvariants.

Section MergeTermination.

Import Selections.

Variable new : nat -> nat.
Variable options : MergeOptions.
Variable this : list Selection.

Lemma pending_le_length (ignore : list Z) :
  (pending ignore <= length ignore)%nat.
Proof. unfold pending. apply length_filter. Qed.

Lemma pending_insert_le (ignore : list Z) (k : nat) :
  (pending (<[k := 1%Z]> ignore) <= pending ignore)%nat.
Proof.
  unfold pending. revert k.
  induction ignore as [|x l IH]; intros [|k]; simpl; auto.
  - rewrite !filter_cons.
    destruct (decide (1 <> 1)); [congruence|].
    destruct (decide (x <> 1)); simpl; lia.
  - rewrite !filter_cons. specialize (IH k).
    destruct (decide (x <> 1)); simpl; lia.
Qed.

Lemma pending_insert_lt (ignore : list Z) (k : nat) :
  (k < length ignore)%nat -> ignore !! k <> Some 1 ->
  (S (pending (<[k := 1%Z]> ignore)) <= pending ignore)%nat.
Proof.
  unfold pending. revert k.
  induction ignore as [|x l IH]; intros [|k]; simpl; try lia.
  - intros _ Hx. rewrite !filter_cons.
    destruct (decide (1 <> 1)); [congruence|].
    destruct (decide (x <> 1)); simpl; [lia|].
    exfalso. apply Hx. f_equal. lia.
  - intros Hk Hx. rewrite !filter_cons.
    assert (Hk' : (k < length l)%nat) by lia.
    specialize (IH k Hk' Hx).
    destruct (decide (x <> 1)); simpl; lia.
Qed.

(** One run of the inner body keeps the length of [ignoreSelections] and
    leaves strictly less to do. *)
Lemma innerBody_progress (i : nat) (b : Selection) (st : Scan) :
  length (ignoreSelections st) = length this ->
  this !! j st = Some b ->
  length (ignoreSelections (innerBody options this i b st)) = length this
  /\ (remaining (length this) (innerBody options this i b st)
      < remaining (length this) st)%nat.
Proof.
  intros Hlen Hb.
  apply lookup_lt_Some in Hb.
  assert (Hj : (j st < length (ignoreSelections st))%nat) by lia.
  pose proof (pending_insert_le (ignoreSelections st) (j st)) as Hle.
  unfold innerBody, remaining.
  destruct (decide (ignoreSelections st !! j st = Some 1)) as [|Hn];
    [simpl; split; [exact Hlen|lia]|].
  pose proof (pending_insert_lt (ignoreSelections st) (j st) Hj Hn) as Hlt.
  repeat match goal with
         | |- context [ if ?c then _ else _ ] => destruct c
         end; simpl; rewrite ?length_insert;
    (split; [exact Hlen|]); try lia; nia.
Qed.

Lemma innerLoop_terminates (i fuel : nat) (st : Scan) :
  length (ignoreSelections st) = length this ->
  (remaining (length this) st < fuel)%nat ->
  exists st', innerLoop fuel options this i st = Some st'
              /\ length (ignoreSelections st') = length this.
Proof.
  revert st. induction fuel as [|fuel IH]; intros st Hlen Hfuel; [lia|].
  simpl. destruct (this !! j st) as [b|] eqn:Hb.
  - destruct (innerBody_progress i b st Hlen Hb) as [Hlen' Hlt].
    apply IH; [exact Hlen'|lia].
  - eauto.
Qed.

Lemma outerBody_terminates (i : nat)
  (acc : list Z * option (list Selection)) :
  length acc.1 = length this ->
  exists acc', outerBody new (innerFuel (length this)) options this i acc
               = Some acc'
               /\ length acc'.1 = length this.
Proof.
  intros Hlen. unfold outerBody.
  destruct (decide (acc.1 !! i = Some 1)); [eauto|].
  destruct (this !! i) as [a|]; [|eauto].
  destruct (innerLoop_terminates i (innerFuel (length this))
              (mkScan (S i) (start a) (end_ a)
                      (isEqual (start a) (end_ a)) false acc.1 acc.2))
    as (st' & Hrun & Hlen').
  - exact Hlen.
  - unfold remaining, innerFuel. simpl.
    pose proof (pending_le_length acc.1). nia.
  - rewrite Hrun. simpl. eauto.
Qed.

Lemma outerLoop_terminates (n i : nat)
  (acc : list Z * option (list Selection)) :
  length acc.1 = length this ->
  is_Some (outerLoop new n (innerFuel (length this)) options this i acc).
Proof.
  revert i acc. induction n as [|n IH]; intros i acc Hlen; simpl; [eauto|].
  destruct (outerBody_terminates i acc Hlen) as (acc' & -> & Hlen').
  simpl. apply IH, Hlen'.
Qed.

End MergeTermination.

(** [merge] returns on every collection: the fuel of its inner loop is
    never used up. *)
Lemma merge_total (new : nat -> nat)
  (options : Selections.MergeOptions) (this : Selections.t) :
  is_Some (Selections.merge new options this).
Proof.
  unfold Selections.merge.
  destruct (outerLoop_terminates new options (Selections.selections this)
              (length (Selections.selections this)) 0
              (replicate (length (Selections.selections this)) 0, None))
    as [acc Hacc].
  - simpl. apply length_replicate.
  - rewrite Hacc. simpl. eauto.
Qed.

Lemma scanFrom_boundsInOrder (i : nat) (a : Selection)
  (acc : list Z * option (list Selection)) :
  boundsInOrder (scanFrom i a acc).
Proof.
  unfold boundsInOrder, scanFrom. simpl.
  pose proof (start_before_end a) as Ha.
  destruct (isEqual (start a) (end_ a)) eqn:E; [reflexivity|]. order.
Qed.

Lemma fromStartEnd_direction (new : nat) (s e : Position) (a : Selection)
  (empty' : bool) :
  (if empty' then isEqual s e = true else isBefore s e = true) ->
  (isEqual (start a) (end_ a) = false -> empty' = false) ->
  let o := fromStartEnd new s e (isReversed a) in
  isReversed o = isReversed a /\ start o = s /\ end_ o = e.
Proof.
  intros Hb He. unfold fromStartEnd, isReversed, start, end_ in *.
  destruct (isBefore (anchor a) (active a)) eqn:Ea; simpl.
  - assert (Hne : empty' = false) by (apply He; clear Hb He; order).
    subst empty'. rewrite Hb. auto.
  - assert (Hes : isBefore e s = false).
    { clear He Ea. destruct empty'; order. }
    rewrite Hes. auto.
Qed.

Section MergeResult.

Import Selections.

Variable new : nat -> nat.
Variable options : MergeOptions.
Variable this : list Selection.

Lemma inputs_keepLeftDirection :
  Forall (keepsLeftDirection new options this) this.
Proof.
  apply Forall_lookup. intros i a Ha.
  exists i, a. split; [|reflexivity]. split; auto.
Qed.

Lemma innerBody_newSelections (i : nat) (b : Selection) (st : Scan) :
  newSelections (innerBody options this i b st) = newSelections st
  \/ newSelections (innerBody options this i b st) = Some (take i this).
Proof.
  unfold innerBody.
  repeat match goal with
         | |- context [ if ?c then _ else _ ] => destruct c
         end; simpl; auto.
  destruct (newSelections st); auto.
Qed.

Lemma innerLoop_newSelections (fuel i : nat) (st st' : Scan) :
  innerLoop fuel options this i st = Some st' ->
  newSelections st' = newSelections st
  \/ newSelections st' = Some (take i this).
Proof.
  revert st. induction fuel as [|fuel IH]; intros st; simpl.
  - destruct (this !! j st); [discriminate|]. intros [= <-]; auto.
  - destruct (this !! j st) as [b|]; [|intros [= <-]; auto].
    intros Hrun. destruct (IH _ Hrun) as [H|H]; [|auto].
    rewrite H. apply innerBody_newSelections.
Qed.

Lemma outerBody_keepsLeftDirection (i : nat)
  (acc acc' : list Z * option (list Selection)) :
  (forall l, acc.2 = Some l ->
             Forall (keepsLeftDirection new options this) l) ->
  outerBody new (innerFuel (length this)) options this i acc = Some acc' ->
  forall l, acc'.2 = Some l -> Forall (keepsLeftDirection new options this) l.
Proof.
  intros Hacc. unfold outerBody.
  destruct (decide (acc.1 !! i = Some 1)); [intros [= <-]; exact Hacc|].
  destruct (this !! i) as [a|] eqn:Ha; [|intros [= <-]; exact Hacc].
  fold (scanFrom i a acc).
  destruct (innerLoop (innerFuel (length this)) options this i
              (scanFrom i a acc)) as [st|] eqn:Hrun; simpl; [|discriminate].
  intros [= <-]. simpl. intros l.
  destruct (innerLoop_invariant _ _ _ _ _ _ Hrun
              (scanFrom_boundsInOrder i a acc)) as [Hb He].
  assert (Hbase : forall l0, newSelections st = Some l0 ->
                             Forall (keepsLeftDirection new options this) l0).
  { intros l0 Hl0.
    destruct (innerLoop_newSelections _ _ _ _ Hrun) as [H|H].
    - apply Hacc. rewrite <- Hl0, H. reflexivity.
    - rewrite H in Hl0. injection Hl0 as <-.
      apply Forall_take, inputs_keepLeftDirection. }
  destruct (changed st) eqn:Hc.
  - intros [= <-]. apply Forall_app_2.
    + destruct (newSelections st) as [l0|]; simpl; [auto|].
      apply Forall_take, inputs_keepLeftDirection.
    + apply Forall_singleton. exists i, a.
      destruct (fromStartEnd_direction (new i) (aStart st) (aEnd st) a
                  (aIsEmpty st))
        as (H1 & _); auto.
      split; [|exact H1]. split; [exact Ha|].
      right. exists acc, st. auto.
  - destruct (newSelections st) as [l0|]; [|discriminate].
    intros [= <-]. apply Forall_app_2; [auto|].
    apply Forall_singleton. exists i, a.
    split; [|reflexivity]. split; auto.
Qed.

Lemma outerLoop_keepsLeftDirection (n i : nat)
  (acc acc' : list Z * option (list Selection)) :
  (forall l, acc.2 = Some l ->
             Forall (keepsLeftDirection new options this) l) ->
  outerLoop new n (innerFuel (length this)) options this i acc = Some acc' ->
  forall l, acc'.2 = Some l -> Forall (keepsLeftDirection new options this) l.
Proof.
  revert i acc. induction n as [|n IH]; intros i acc Hacc; simpl.
  - intros [= <-]. exact Hacc.
  - destruct (outerBody new (innerFuel (length this)) options this i acc)
      as [acc1|] eqn:Hbody; simpl; [|discriminate].
    apply IH. eapply outerBody_keepsLeftDirection; eauto.
Qed.

End MergeResult.

Section MergeLeftOperand.

Import Selections.

Variable new : nat -> nat.
Variable options : MergeOptions.
Variable this : list Selection.

(** One run of the inner body: [j] stays after [i]; a selection it marks
    comes after [i]; while nothing has changed and there is no new array,
    nothing is marked; the new array, once there, is not replaced. *)
Lemma innerBody_scan (i : nat) (b : Selection) (st : Scan) :
  (i < j st)%nat ->
  let st' := innerBody options this i b st in
  (i < j st')%nat
  /\ (forall k, ignoreSelections st' !! k = Some 1 ->
                ignoreSelections st !! k = Some 1 \/ (i < k)%nat)
  /\ (changed st' = false -> newSelections st' = None ->
      ignoreSelections st' = ignoreSelections st
      /\ changed st = false /\ newSelections st = None)
  /\ (newSelections st' = newSelections st
      \/ (newSelections st = None
          /\ newSelections st' = Some (take i this))).
Proof.
  intros Hj. unfold innerBody. simpl.
  assert (Hmark : forall k,
             <[j st := 1]> (ignoreSelections st) !! k = Some 1 ->
             ignoreSelections st !! k = Some 1 \/ (i < k)%nat).
  { intros k Hk. destruct (decide (k = j st)) as [->|Hne]; [right; lia|].
    rewrite list_lookup_insert_ne in Hk by auto. auto. }
  repeat match goal with
         | |- context [ if ?c then _ else _ ] => destruct c
         end; simpl;
    (split; [lia|]); (split; [auto|]);
    (split; [try discriminate; auto|]);
    destruct (newSelections st); auto; discriminate.
Qed.

Lemma innerLoop_scan (fuel i : nat) (st st' : Scan) :
  innerLoop fuel options this i st = Some st' ->
  (i < j st)%nat ->
  (forall k, ignoreSelections st' !! k = Some 1 ->
             ignoreSelections st !! k = Some 1 \/ (i < k)%nat)
  /\ (changed st' = false -> newSelections st' = None ->
      ignoreSelections st' = ignoreSelections st
      /\ changed st = false /\ newSelections st = None)
  /\ (newSelections st' = newSelections st
      \/ (newSelections st = None
          /\ newSelections st' = Some (take i this))).
Proof.
  revert st. induction fuel as [|fuel IH]; intros st; simpl.
  - destruct (this !! j st); [discriminate|]. intros [= <-]; auto.
  - destruct (this !! j st) as [b|]; [|intros [= <-]; auto].
    intros Hrun Hj.
    destruct (innerBody_scan i b st Hj) as (Hj' & Hm & Hu & Hn).
    destruct (IH _ Hrun Hj') as (Hm' & Hu' & Hn').
    split; [|split].
    + intros k Hk. destruct (Hm' k Hk) as [H|H]; auto.
    + intros Hc Hnone.
      destruct (Hu' Hc Hnone) as (-> & Hc1 & Hn1). auto.
    + destruct Hn' as [->|[H1 ->]]; [exact Hn|].
      right. split; [|reflexivity].
      destruct Hn as [H|[H _]]; congruence.
Qed.

(** The state at [i + 1] is the state at [i] after the outer body. *)
Lemma outerLoop_snoc (n fuel i : nat)
  (acc : list Z * option (list Selection)) :
  outerLoop new (S n) fuel options this i acc
  = outerLoop new n fuel options this i acc
    ≫= outerBody new fuel options this (i + n).
Proof.
  revert i acc. induction n as [|n IH]; intros i acc.
  - simpl. rewrite Nat.add_0_r.
    destruct (outerBody new fuel options this i acc); reflexivity.
  - change (outerLoop new (S (S n)) fuel options this i acc)
      with (outerBody new fuel options this i acc
            ≫= outerLoop new (S n) fuel options this (S i)).
    change (outerLoop new (S n) fuel options this i acc)
      with (outerBody new fuel options this i acc
            ≫= outerLoop new n fuel options this (S i)).
    destruct (outerBody new fuel options this i acc) as [acc1|]; simpl;
      [|reflexivity].
    rewrite <- Nat.add_succ_comm. apply IH.
Qed.

Lemma stateAt_S (i : nat) :
  stateAt new options this (S i)
  = stateAt new options this i
    ≫= outerBody new (innerFuel (length this)) options this i.
Proof. unfold stateAt. apply outerLoop_snoc. Qed.

Lemma outerBody_leftOperands (i : nat) (a : Selection)
  (acc acc' : list Z * option (list Selection)) :
  this !! i = Some a ->
  stateAt new options this i = Some acc ->
  outerBody new (innerFuel (length this)) options this i acc = Some acc' ->
  leftOperandsSoFar new options this i acc ->
  leftOperandsSoFar new options this (S i) acc'.
Proof.
  intros Ha Hstate Hbody [Hall Hnone].
  unfold leftOperandsSoFar.
  rewrite seq_S, filter_app, filter_cons, filter_nil. simpl.
  assert (Hleft : isLeftOperand new options this i
                  = bool_decide (acc.1 !! i <> Some 1)).
  { unfold isLeftOperand. rewrite Hstate. reflexivity. }
  rewrite Hleft. clear Hleft.
  revert Hbody. unfold outerBody.
  destruct (decide (acc.1 !! i = Some 1)) as [Hm|Hm].
  - intros [= <-].
    rewrite bool_decide_eq_false_2 by auto.
    destruct (decide (false = true)); [discriminate|].
    rewrite app_nil_r.
    destruct acc.2 as [l|] eqn:Hl; [auto|].
    exfalso. apply (Hnone eq_refl i Hm).
  - rewrite Ha. fold (scanFrom i a acc).
    destruct (innerLoop (innerFuel (length this)) options this i
                (scanFrom i a acc)) as [st|] eqn:Hrun; simpl; [|discriminate].
    intros [= <-]. simpl.
    rewrite bool_decide_eq_true_2 by auto.
    destruct (decide (true = true)); [|congruence].
    destruct (innerLoop_scan _ _ _ _ Hrun) as (Hmarks & Hun & Hnew);
      [simpl; lia|].
    simpl in Hmarks, Hun, Hnew.
    destruct (innerLoop_invariant _ _ _ _ _ _ Hrun
                (scanFrom_boundsInOrder i a acc)) as [Hb He].
    assert (Hsame : default (take i this) (newSelections st)
                    = default (take i this) acc.2).
    { destruct Hnew as [->|[-> ->]]; reflexivity. }
    assert (Hone : forall o,
               o = (if changed st
                    then fromStartEnd (new i) (aStart st) (aEnd st)
                           (isReversed a)
                    else a) ->
               mergedAt new options this i o).
    { intros o Ho. exists a, acc, st.
      repeat split; auto.
      - intros k Hk Hk'. destruct (Hmarks k Hk); [contradiction|auto].
      - rewrite Ho. destruct (changed st); [|reflexivity].
        destruct (fromStartEnd_direction (new i) (aStart st) (aEnd st) a
                    (aIsEmpty st)) as (H1 & _); auto. }
    destruct (changed st) eqn:Hc; simpl.
    + split; [|discriminate].
      rewrite Hsame. apply Forall2_app; [exact Hall|].
      constructor; [|constructor]. apply Hone. reflexivity.
    + destruct (newSelections st) as [l|] eqn:Hl; simpl.
      * split; [|discriminate].
        simpl in Hsame. rewrite Hsame.
        apply Forall2_app; [exact Hall|].
        constructor; [|constructor]. apply Hone. reflexivity.
      * destruct (Hun eq_refl eq_refl) as (-> & _ & Hacc).
        split; [|intros _; apply Hnone, Hacc].
        rewrite (take_S_r _ _ _ Ha).
        rewrite Hacc in Hall. simpl in Hall.
        apply Forall2_app; [exact Hall|].
        constructor; [|constructor]. apply Hone. reflexivity.
Qed.

Lemma stateAt_leftOperands (i : nat)
  (acc : list Z * option (list Selection)) :
  (i <= length this)%nat ->
  stateAt new options this i = Some acc ->
  leftOperandsSoFar new options this i acc.
Proof.
  revert acc. induction i as [|i IH]; intros acc Hi.
  - intros [= <-]. split; [constructor|].
    intros _ k Hk. simpl in Hk.
    apply lookup_replicate in Hk as [Hk _]. discriminate.
  - rewrite stateAt_S.
    destruct (stateAt new options this i) as [acc0|] eqn:Hstate; simpl;
      [|discriminate].
    intros Hbody.
    destruct (lookup_lt_is_Some_2 this i) as [a Ha]; [lia|].
    apply (outerBody_leftOperands i a acc0 acc Ha Hstate Hbody).
    apply IH; [lia|reflexivity].
Qed.

End MergeLeftOperand.

(** C5: [merge] returns, in order, one selection for every left operand of
    its scan, that is for every selection that is not marked when the outer
    loop reaches it.  The selections merged into a left operand are the ones
    its scan marks, all of which come after it in the array; the selection
    returned for it is the left operand itself when its scan has changed
    nothing, and else the selection that [fromStartEnd] builds from the
    merged bounds; in both cases it has the direction of the left operand.
    This holds for every collection and both values of the option, so for
    [mergeOverlapping] and [mergeConsecutive]. *)
Theorem merge_keeps_left_direction (new : nat -> nat)
  (options : Selections.MergeOptions) (this result : Selections.t) :
  Selections.merge new options this = Some result ->
  Forall2 (mergedAt new options (Selections.selections this))
          (leftOperands new options (Selections.selections this))
          (Selections.selections result).
Proof.
  unfold Selections.merge.
  destruct (Selections.outerLoop _ _ _ _ _ _ _) as [acc|] eqn:Hloop;
    simpl; [|discriminate].
  intros [= <-]. simpl.
  destruct (stateAt_leftOperands new options (Selections.selections this)
              (length (Selections.selections this)) acc) as [Hall _];
    [lia|exact Hloop|].
  rewrite firstn_all in Hall. exact Hall.
Qed.

(** On [(0,2)->(0,1)], [(0,0)-(0,3)], [(0,2)-(0,5)] the scan from the first
    selection, which is reversed, merges the two others into it: the only
    left operand is the index 0, and the result is the reversed selection
    [(0,5)->(0,0)]. *)
Lemma merge_keeps_left_direction_witness :
  let s0 := mkSelection (at_ 0 2 0) (at_ 0 1 1) 0 in
  let s1 := Examples.range 1 0 0 0 3 in
  let s2 := Examples.range 2 0 2 0 5 in
  leftOperands Examples.built (Selections.mkOptions false) [s0; s1; s2]
  = [0%nat]
  /\ Forall2 (mergedAt Examples.built (Selections.mkOptions false)
               [s0; s1; s2])
       [0%nat]
       [mkSelection (at_ 0 5 5) (at_ 0 0 2) (Examples.built 0)].
Proof.
  intros s0 s1 s2. split; [reflexivity|].
  apply (merge_keeps_left_direction Examples.built
           (Selections.mkOptions false)
           (Selections.mk None [s0; s1; s2])
           (Selections.mk None
              [mkSelection (at_ 0 5 5) (at_ 0 0 2) (Examples.built 0)])).
  reflexivity.
Defined.

(** The test of one pair: whenever the inner body run for
    [mergeOverlapping] does more than step over [b], the inner body run for
    [mergeConsecutive] does the same thing in the same state. *)
Lemma consecutive_test_extends_overlapping (this : list Selection) (i : nat)
  (b : Selection) (st : Selections.Scan) :
  boundsInOrder st ->
  Selections.innerBody (Selections.mkOptions false) this i b st
  <> Selections.continue_ st ->
  Selections.innerBody (Selections.mkOptions true) this i b st
  = Selections.innerBody (Selections.mkOptions false) this i b st.
Proof.
  unfold boundsInOrder, Selections.innerBody. simpl.
  intros Hb.
  destruct (decide (Selections.ignoreSelections st !! Selections.j st
                    = Some 1)); [reflexivity|].
  destruct (Selections.aIsEmpty st); [reflexivity|].
  rewrite ?orb_false_r.
  destruct (isAfterOrEqual (Selections.aStart st) (start b)) eqn:C1; simpl.
  - destruct (isBefore (Selections.aStart st) (end_ b)) eqn:C2; simpl;
      [reflexivity|].
    destruct (isAfter (Selections.aEnd st) (start b)) eqn:C3; simpl.
    + destruct (isBeforeOrEqual (Selections.aEnd st) (end_ b)) eqn:C4.
      * exfalso. clear C1 C3. order.
      * congruence.
    + congruence.
  - destruct (isAfter (Selections.aEnd st) (start b)) eqn:C3; simpl;
      [reflexivity|].
    congruence.
Qed.

(** ** selection.ts: further properties *)

Lemma start_end_cases (s : Selection) :
  (start s = anchor s /\ end_ s = active s
   /\ isBefore (anchor s) (active s) = true)
  \/ (start s = active s /\ end_ s = anchor s
      /\ isBefore (anchor s) (active s) = false).
Proof.
  unfold start, end_. destruct (isBefore (anchor s) (active s)); auto.
Qed.

(** X1: [overlap] does not depend on the order of its two arguments. *)
Theorem overlap_symmetric (a b : Selection) : overlap a b = overlap b a.
Proof. unfold overlap. apply andb_comm. Qed.

(** X2: for two selections that each lie on one line, [overlap] holds
    exactly when neither ends before the other starts; selections that
    only touch do overlap. *)
Theorem overlap_single_lines (a b : Selection) :
  line (start a) = line (end_ a) ->
  line (start b) = line (end_ b) ->
  overlap a b
  = isAfterOrEqual (end_ a) (start b) && isAfterOrEqual (end_ b) (start a).
Proof.
  intros Ha Hb. unfold overlap, isAfterOrEqual, isBefore.
  rewrite <- Ha, <- Hb.
  destruct (Z.ltb_spec (line (start a)) (line (start b)));
    destruct (Z.ltb_spec (line (start b)) (line (start a)));
    destruct (Z.eqb_spec (line (start a)) (line (start b)));
    destruct (Z.eqb_spec (line (start b)) (line (start a)));
    simpl; try lia; reflexivity.
Qed.

Lemma overlap_single_lines_witness :
  overlap (Examples.range 0 0 0 0 2) (Examples.range 1 0 2 0 4) = true.
Proof.
  rewrite (overlap_single_lines (Examples.range 0 0 0 0 2)
             (Examples.range 1 0 2 0 4)); reflexivity.
Defined.

(** X3: a selection over several lines whose end column is smaller than
    its start column does not overlap itself according to [overlap]. *)
Theorem overlap_not_reflexive (a : Selection) :
  line (start a) < line (end_ a) ->
  character (end_ a) < character (start a) ->
  overlap a a = false.
Proof.
  intros Hl Hc. unfold overlap.
  rewrite Z.eqb_refl. apply Z.ltb_lt in Hc. rewrite Hc.
  rewrite orb_true_r. reflexivity.
Qed.

Lemma overlap_not_reflexive_witness :
  overlap (Examples.range 0 0 5 1 2) (Examples.range 0 0 5 1 2) = false.
Proof. apply overlap_not_reflexive; simpl; lia. Defined.

(** X4: [endLine] lies between the line of the start and the line of the
    end, and differs from the latter only by one, when the end is at
    column 0. *)
Theorem endLine_between (s : Selection) :
  line (start s) <= endLine s <= line (end_ s)
  /\ (endLine s <> line (end_ s) ->
      character (end_ s) = 0 /\ endLine s = line (end_ s) - 1).
Proof.
  pose proof (start_before_end s) as H. unfold endLine.
  destruct (Z.eqb_spec (line (start s)) (line (end_ s))) as [E|E];
    destruct (Z.eqb_spec (character (end_ s)) 0) as [C|C]; simpl;
    (split; [order|intros; try lia; auto]).
Qed.

(** X5: the position returned by [endPosition] is on the line [endLine],
    and is the end itself whenever [endLine] is the line of the end. *)
Theorem endPosition_on_endLine (fresh : nat) (s : Selection)
  (doc : Document) (p : Position) :
  endPosition fresh s doc = Some p ->
  line p = endLine s /\ (endLine s = line (end_ s) -> p = end_ s).
Proof.
  unfold endPosition.
  destruct (Z.eqb_spec (endLine s) (line (end_ s))) as [E|E]; simpl.
  - intros [= <-]. auto.
  - destruct (lineAt doc (endLine s)); simpl; [|discriminate].
    intros [= <-]. split; [reflexivity|contradiction].
Qed.

Lemma endPosition_on_endLine_witness :
  line (at_ 0 3 7) = endLine (Examples.range 0 0 0 1 0).
Proof.
  apply (endPosition_on_endLine 7 (Examples.range 0 0 0 1 0)
           Examples.abc_def (at_ 0 3 7)).
  reflexivity.
Defined.

(** X6: [isStrictlyReversed] never throws and is the same in both
    selection behaviours: it holds exactly when the active position is
    strictly before the anchor. *)
Theorem isStrictlyReversed_is_strict_order (s : Selection) (ctx : Context) :
  isStrictlyReversed s ctx = Some (isBefore (active s) (anchor s)).
Proof.
  unfold isStrictlyReversed, isNonDirectional, isEmpty, isReversed.
  destruct (start_end_cases s) as [(-> & -> & E)|(-> & -> & E)]; rewrite E;
    simpl.
  - rewrite orb_true_r. f_equal. order.
  - rewrite orb_false_r, andb_false_r.
    destruct (isEqual (active s) (anchor s)) eqn:Q; simpl; f_equal; order.
Qed.

(** X7: a selection is rebuilt by [fromStartEnd] from its start, its end
    and its direction: the new selection object holds the anchor and the
    active position of the old one; and from a start strictly before an
    end, [fromStartEnd] builds the selection with that start, that end and
    the requested direction. *)
Theorem fromStartEnd_round_trip (new : nat) (x : Selection)
  (s e : Position) (reversed : bool) :
  fromStartEnd new (start x) (end_ x) (isReversed x)
  = mkSelection (anchor x) (active x) new
  /\ (isBefore s e = true ->
      start (fromStartEnd new s e reversed) = s
      /\ end_ (fromStartEnd new s e reversed) = e
      /\ isReversed (fromStartEnd new s e reversed) = reversed).
Proof.
  split.
  - unfold fromStartEnd, isReversed.
    destruct (start_end_cases x) as [(-> & -> & E)|(-> & -> & E)];
      rewrite E; destruct x; reflexivity.
  - intros H. unfold fromStartEnd, start, end_, isReversed.
    assert (H' : isBefore e s = false) by order.
    destruct reversed; simpl; rewrite ?H, ?H'; auto.
Qed.

Lemma fromStartEnd_round_trip_witness :
  start (fromStartEnd 7 (at_ 0 0 0) (at_ 0 1 1) true) = at_ 0 0 0.
Proof.
  destruct (fromStartEnd_round_trip 7 (Examples.caret 0 0 0)
              (at_ 0 0 0) (at_ 0 1 1) true) as [_ H].
  apply H. reflexivity.
Defined.

Lemma endLine_between_witness :
  character (end_ (Examples.range 0 0 0 1 0)) = 0
  /\ endLine (Examples.range 0 0 0 1 0)
     = line (end_ (Examples.range 0 0 0 1 0)) - 1.
Proof.
  destruct (endLine_between (Examples.range 0 0 0 1 0)) as [_ H].
  apply H. vm_compute. discriminate.
Defined.

(** X8: a selection spans entire lines exactly when it both starts and
    ends with an entire line; a selection that spans one entire line spans
    entire lines and is a single line for [isSingleLine]; a selection that
    ends with an entire line ends with a line break; and a selection ends
    with a line break exactly when [endLine] is not the line of its end. *)
Theorem entire_lines_relations (s : Selection) :
  isEntireLines s = startsWithEntireLine s && endsWithEntireLine s
  /\ (isEntireLine s = true ->
      isEntireLines s = true /\ isSingleLine s = true)
  /\ (endsWithEntireLine s = true -> endsWithLineBreak s = true)
  /\ endsWithLineBreak s = negb (endLine s =? line (end_ s)).
Proof.
  pose proof (start_before_end s) as H.
  unfold isEntireLines, isEntireLine, startsWithEntireLine,
    endsWithEntireLine, endsWithLineBreak, isSingleLine, endLine.
  repeat split; try intros Hyp; order.
Qed.

Lemma entire_lines_relations_witness :
  isEntireLines (Examples.range 0 0 0 1 0) = true
  /\ isSingleLine (Examples.range 0 0 0 1 0) = true.
Proof.
  destruct (entire_lines_relations (Examples.range 0 0 0 1 0))
    as (_ & H & _).
  apply H. reflexivity.
Defined.

(** X9: [shift] always makes the given position the active one; with
    [Jump] the result is the empty selection at that position; in caret
    mode [Select] anchors at the old active position and [Extend] keeps the
    anchor; in character mode [Extend] keeps the anchor when the selection
    is extended on the side it already faces (the anchor is the start
    object and the position is not before it, or the anchor is the end
    object and the position is before it). *)
Theorem shift_contract (new fresh : nat) (s : Selection) (position : Position)
  (sh : Shift) (ctx : Context) :
  active (shift new fresh s position sh ctx) = position
  /\ (sh = Jump -> shift new fresh s position sh ctx = empty new position)
  /\ (selectionBehavior ctx = Caret -> sh = Select ->
      anchor (shift new fresh s position sh ctx) = active s)
  /\ (selectionBehavior ctx = Caret -> sh = Extend ->
      anchor (shift new fresh s position sh ctx) = anchor s)
  /\ (selectionBehavior ctx = Character -> sh = Extend ->
      same_object (anchor s) (start s) = true ->
      isAfter (anchor s) position = false ->
      anchor (shift new fresh s position sh ctx) = anchor s)
  /\ (selectionBehavior ctx = Character -> sh = Extend ->
      same_object (anchor s) (end_ s) = true ->
      isAfter (anchor s) position = true ->
      anchor (shift new fresh s position sh ctx) = anchor s).
Proof.
  unfold shift, seekFrom. split; [reflexivity|].
  split; [intros ->; rewrite andb_false_r; reflexivity|].
  split; [intros -> ->; reflexivity|].
  split; [intros -> ->; reflexivity|].
  split; intros -> -> Hobj Hdir; simpl; rewrite Hdir, Hobj; reflexivity.
Qed.

Lemma shift_contract_witness :
  anchor (shift 7 9 (Examples.range 0 0 1 0 2) (at_ 0 3 8) Extend
            (Examples.characterMode Examples.abcd))
  = anchor (Examples.range 0 0 1 0 2).
Proof.
  destruct (shift_contract 7 9 (Examples.range 0 0 1 0 2) (at_ 0 3 8) Extend
              (Examples.characterMode Examples.abcd))
    as (_ & _ & _ & _ & H & _).
  apply H; reflexivity.
Defined.

(** X10: for a selection whose anchor and active positions are two
    objects, moving forward is moving towards the anchor exactly when the
    selection is reversed, moving backward exactly when it is not, and the
    line tested by [activeLineIsFullySelected] is the first one when the
    selection is reversed and the last one otherwise.  For a selection
    built by [empty] from one object both directions move towards the
    anchor. *)
Theorem active_side_by_identity (new : nat) (s : Selection)
  (p : Position) (d : Direction) :
  (same_object (anchor s) (active s) = false ->
   isMovingTowardsAnchor s Forward = isReversed s
   /\ isMovingTowardsAnchor s Backward = negb (isReversed s)
   /\ activeLineIsFullySelected s
      = if isReversed s then startsWithEntireLine s
        else endsWithEntireLine s)
  /\ isMovingTowardsAnchor (empty new p) d = true.
Proof.
  split.
  - intros Hobj.
    assert (Hobj' : same_object (active s) (anchor s) = false).
    { unfold same_object in *. rewrite Nat.eqb_sym. exact Hobj. }
    assert (Hrefl : same_object (active s) (active s) = true).
    { unfold same_object. apply Nat.eqb_refl. }
    unfold isMovingTowardsAnchor, activeLineIsFullySelected, isReversed.
    destruct (start_end_cases s) as [(Hs & He & E)|(Hs & He & E)];
      rewrite Hs, ?He, E, ?Hobj', ?Hrefl; auto.
  - unfold isMovingTowardsAnchor, empty, start, end_, same_object. simpl.
    destruct d; destruct (isBefore p p); apply Nat.eqb_refl.
Qed.

Lemma active_side_by_identity_witness :
  isMovingTowardsAnchor (Examples.range 0 0 1 0 2) Forward
  = isReversed (Examples.range 0 0 1 0 2).
Proof.
  destruct (active_side_by_identity 7 (Examples.range 0 0 1 0 2)
              (at_ 0 0 0) Forward) as [H _].
  apply H. reflexivity.
Defined.

(** ** selections.ts: sorting and construction *)

Lemma compareTo_negative (p q : Position) :
  (compareTo p q <? 0) = isBefore p q.
Proof. unfold compareTo. order. Qed.

Lemma insertSorted_permutation (x : Selection) (l : list Selection) :
  Selections.insertSorted x l ≡ₚ x :: l.
Proof.
  induction l as [|y l IH]; simpl; [reflexivity|].
  destruct (compareTo (start y) (start x) <? 0); [|reflexivity].
  rewrite IH. apply Permutation_swap.
Qed.

Lemma insertSorted_sorted (x : Selection) (l : list Selection) :
  StronglySorted startsNotAfter l ->
  StronglySorted startsNotAfter (Selections.insertSorted x l).
Proof.
  induction l as [|y l IH]; simpl; intros Hl.
  - repeat constructor.
  - apply StronglySorted_cons in Hl as [Hy Hl].
    rewrite compareTo_negative.
    destruct (isBefore (start y) (start x)) eqn:E.
    + apply StronglySorted_cons. split; [|auto].
      rewrite insertSorted_permutation. constructor; [|exact Hy].
      unfold startsNotAfter. clear Hy. order.
    + apply StronglySorted_cons. split.
      * assert (Hxy : startsNotAfter x y)
          by (unfold startsNotAfter; clear Hy; order).
        constructor; [exact Hxy|].
        eapply Forall_impl; [exact Hy|].
        unfold startsNotAfter in *. intros z Hz. clear Hy. order.
      * apply StronglySorted_cons. auto.
Qed.

Lemma insertSorted_stable (p : Position) (x : Selection)
  (l : list Selection) :
  filter (fun s => isEqual (start s) p = true) (Selections.insertSorted x l)
  = filter (fun s => isEqual (start s) p = true) (x :: l).
Proof.
  induction l as [|y l IH]; simpl; [reflexivity|].
  rewrite compareTo_negative.
  destruct (isBefore (start y) (start x)) eqn:E; [|reflexivity].
  rewrite !filter_cons in *. rewrite IH.
  destruct (decide (isEqual (start y) p = true)) as [Hy|Hy];
    destruct (decide (isEqual (start x) p = true)) as [Hx|Hx];
    try reflexivity.
  exfalso. order.
Qed.

Lemma sortByStart_of_sorted (l : list Selection) :
  StronglySorted startsNotAfter l -> Selections.sortByStart l = l.
Proof.
  unfold Selections.sortByStart.
  induction l as [|x l IH]; simpl; intros Hl; [reflexivity|].
  apply StronglySorted_cons in Hl as [Hx Hl]. rewrite (IH Hl).
  destruct l as [|y l']; simpl; [reflexivity|].
  rewrite compareTo_negative.
  apply Forall_cons in Hx as [Hxy _]. unfold startsNotAfter in Hxy.
  destruct (isBefore (start y) (start x)) eqn:E; [|reflexivity].
  exfalso. clear IH Hl. order.
Qed.

Lemma sortByStart_sorted (l : list Selection) :
  StronglySorted startsNotAfter (Selections.sortByStart l).
Proof.
  unfold Selections.sortByStart.
  induction l as [|x l IH]; simpl; [constructor|].
  apply insertSorted_sorted, IH.
Qed.

Lemma sortByStart_permutation (l : list Selection) :
  Selections.sortByStart l ≡ₚ l.
Proof.
  unfold Selections.sortByStart.
  induction l as [|x l IH]; simpl; [reflexivity|].
  rewrite insertSorted_permutation, IH. reflexivity.
Qed.

(** X11: [sort] leaves the selections of the collection ordered by start,
    keeps exactly the selections it had, and keeps the selections that
    start at the same position in the order they were in. *)
Theorem sort_sorted_stable (this : Selections.t) (p : Position) :
  StronglySorted startsNotAfter (Selections.selections (Selections.sort this))
  /\ Selections.selections (Selections.sort this)
     ≡ₚ Selections.selections this
  /\ filter (fun s => isEqual (start s) p = true)
            (Selections.selections (Selections.sort this))
     = filter (fun s => isEqual (start s) p = true)
              (Selections.selections this)
  /\ Selections.primarySelection (Selections.sort this)
     = Selections.primarySelection this.
Proof.
  simpl. split; [apply sortByStart_sorted|].
  split; [apply sortByStart_permutation|].
  split; [|reflexivity].
  unfold Selections.sortByStart.
  induction (Selections.selections this) as [|x l IH]; simpl;
    [reflexivity|].
  rewrite insertSorted_stable, !filter_cons, IH. reflexivity.
Qed.

(** X12: [sort] changes nothing in a collection that is ordered by start;
    sorting twice is sorting once. *)
Theorem sort_idempotent (this : Selections.t) :
  (StronglySorted startsNotAfter (Selections.selections this) ->
   Selections.sort this = this)
  /\ Selections.sort (Selections.sort this) = Selections.sort this.
Proof.
  unfold Selections.sort. simpl. split.
  - intros H. rewrite (sortByStart_of_sorted _ H). destruct this; reflexivity.
  - rewrite (sortByStart_of_sorted _ (sortByStart_sorted _)). reflexivity.
Qed.

Lemma sort_idempotent_witness :
  Selections.sort
    (Selections.mk None [Examples.range 0 0 0 0 1; Examples.range 1 0 2 0 3])
  = Selections.mk None [Examples.range 0 0 0 0 1; Examples.range 1 0 2 0 3].
Proof.
  destruct (sort_idempotent
              (Selections.mk None
                 [Examples.range 0 0 0 0 1; Examples.range 1 0 2 0 3]))
    as [H _].
  apply H. simpl. repeat constructor.
Defined.

(** X13: the constructor orders the selections by start; without a
    primary selection it takes the first element of the array as it was
    given, before sorting, which is a selection of the collection but not
    necessarily its first one (as on [(0,2)-(0,3)], [(0,0)-(0,1)]); a
    primary selection that is given is kept without a check that the array
    holds it. *)
Theorem constructor_sorted_primary (first : Selection)
  (others : list Selection) (given : Selection) (l : list Selection) :
  StronglySorted startsNotAfter
    (Selections.selections (Selections.constructor l None))
  /\ Selections.selections (Selections.constructor l None) ≡ₚ l
  /\ Selections.primarySelection
       (Selections.constructor (first :: others) None) = Some first
  /\ first ∈ Selections.selections
               (Selections.constructor (first :: others) None)
  /\ Selections.constructor l (Some given)
     = Selections.mk (Some given) (Selections.sortByStart l)
  /\ (let late := Examples.range 0 0 2 0 3 in
      let early := Examples.range 1 0 0 0 1 in
      let c := Selections.constructor [late; early] None in
      Selections.primarySelection c = Some late
      /\ Selections.nth c 0 = Some early).
Proof.
  unfold Selections.constructor, Selections.sort. simpl.
  split; [apply sortByStart_sorted|].
  split; [apply sortByStart_permutation|].
  split; [reflexivity|].
  split; [|split; [reflexivity|split; reflexivity]].
  change (first ∈ Selections.sortByStart (first :: others)).
  rewrite sortByStart_permutation. apply list_elem_of_here.
Qed.

(** ** selections.ts: rotation *)

Lemma rotate_back_arith (z k n : Z) :
  0 <= z < n -> 0 <= k ->
  ((z + k) mod n + (n - k mod n)) mod n = z.
Proof.
  intros Hz Hk.
  rewrite <- (Zplus_mod_idemp_r k z n).
  pose proof (Z.mod_pos_bound k n ltac:(lia)) as Hr.
  set (r := k mod n) in *.
  destruct (Z_lt_ge_dec (z + r) n) as [Hlt|Hge].
  - rewrite (Z.mod_small (z + r) n) by lia.
    replace (z + r + (n - r)) with (z + 1 * n) by lia.
    rewrite Z.mod_add by lia. apply Z.mod_small. lia.
  - assert (Hm : (z + r) mod n = z + r - n).
    { symmetry. apply (Z.mod_unique (z + r) n 1); lia. }
    rewrite Hm. replace (z + r - n + (n - r)) with z by lia.
    apply Z.mod_small. lia.
Qed.

Lemma same_selection_refl (a : Selection) :
  Selections.same_selection a a = true.
Proof.
  unfold Selections.same_selection, same_object.
  rewrite !Nat.eqb_refl. reflexivity.
Qed.

Lemma distinctObjects_tail (y : Selection) (l : list Selection) :
  distinctObjects (y :: l) -> distinctObjects l.
Proof.
  intros H i k a b Ha Hb Hab.
  assert (S i = S k) by (eapply H; eauto). lia.
Qed.

Lemma indexOfFrom_lookup (l : list Selection) (i : nat) (k : Z)
  (s : Selection) :
  distinctObjects l -> l !! i = Some s ->
  Selections.indexOfFrom k l s = k + Z.of_nat i.
Proof.
  revert i k. induction l as [|y l IH]; intros i k Hd Hi; [discriminate|].
  simpl. destruct i as [|i]; simpl in Hi.
  - injection Hi as ->. rewrite same_selection_refl. lia.
  - destruct (Selections.same_selection y s) eqn:E.
    + assert (O = S i) by (eapply (Hd O (S i) y s); eauto). discriminate.
    + rewrite (IH i (k + 1)); [lia|eapply distinctObjects_tail; eauto|auto].
Qed.

(** Two calls at which the object of the primary selection and the size of
    the amount matter.  After [mergeOverlapping] has merged two equal empty
    selections the array holds a new object in the place of the primary
    selection, which [indexOf] does not find: [rotate(1)] then picks the
    index [(-1 + 1) % 2 = 0].  From the index 1 of 3, the sum [1 + 2 ^ 53]
    is rounded to [2 ^ 53], and [rotate(2 ^ 53)] picks the index
    [2 ^ 53 % 3 = 2]. *)
Lemma rotate_unfound_and_rounded :
  let e0 := Examples.caret 0 0 1 in
  let e1 := Examples.caret 1 0 1 in
  let s2 := Examples.range 2 0 2 0 3 in
  let merged := mkSelection (at_ 0 1 0) (at_ 0 1 0) (Examples.built 0) in
  Selections.mergeOverlapping Examples.built
    (Selections.constructor [e0; e1; s2] None)
  = Some (Selections.mk (Some e0) [merged; s2])
  /\ Selections.indexOf [merged; s2] (Some e0) = -1
  /\ Selections.rotate (Selections.mk (Some e0) [merged; s2]) 1
     = Selections.mk (Some merged) [merged; s2]
  /\ Selections.rotate (Selections.mk (Some e1) [e0; e1; s2]) (2 ^ 53)
     = Selections.mk (Some s2) [e0; e1; s2].
Proof. repeat split; vm_compute; reflexivity. Qed.

(** X14: in a collection of fewer than [2 ^ 32] selections (the bound of
    an array) that are distinct objects, whose primary selection is the
    object at index [i], [rotate(k)] with [k >= 0] and [i + k] below
    [2 ^ 53] (where the sum of the index and the amount is exact) makes the
    selection of index [(i + k) mod n] primary, and [rotate(n - k mod n)]
    after it makes the original selection primary again. *)
Theorem rotate_forward_law (this : Selections.t) (i : nat) (s : Selection)
  (k : Z) :
  distinctObjects (Selections.selections this) ->
  Selections.selections this !! i = Some s ->
  Selections.primarySelection this = Some s ->
  0 <= k ->
  Z.of_nat i + k < 2 ^ 53 ->
  Z.of_nat (length (Selections.selections this)) < 2 ^ 32 ->
  let n := Z.of_nat (length (Selections.selections this)) in
  Selections.primarySelection (Selections.rotate this k)
  = Selections.selections this !! Z.to_nat ((Z.of_nat i + k) mod n)
  /\ Selections.primarySelection
       (Selections.rotate (Selections.rotate this k) (n - k mod n))
     = Some s.
Proof.
  intros Hd Hi Hp Hk Hexact Harray n.
  pose proof (lookup_lt_Some _ _ _ Hi) as Hlt.
  assert (Hn : 0 < n) by (unfold n; lia).
  assert (Hin : Z.of_nat i < n) by (unfold n; lia).
  set (m := (Z.of_nat i + k) mod n).
  assert (Hm : 0 <= m < n) by (apply Z.mod_pos_bound; lia).
  assert (Hfirst : Selections.primarySelection (Selections.rotate this k)
                   = Selections.selections this !! Z.to_nat m).
  { unfold Selections.rotate.
    cbn [Selections.primarySelection Selections.selections].
    fold n. rewrite Hp. cbn [Selections.indexOf].
    rewrite (indexOfFrom_lookup _ i 0 s Hd Hi), Z.add_0_l.
    rewrite roundToDouble_exact by lia.
    destruct (Z.eqb_spec n 0); [lia|].
    rewrite Z.rem_mod_nonneg by lia. fold m.
    unfold Selections.index.
    destruct (Z.ltb_spec m 0); [lia|reflexivity]. }
  split; [exact Hfirst|].
  destruct (lookup_lt_is_Some_2 (Selections.selections this) (Z.to_nat m))
    as [s' Hs']; [lia|].
  unfold Selections.rotate at 1. rewrite Hfirst, Hs'.
  cbn [Selections.primarySelection Selections.selections
       Selections.indexOf].
  change (Selections.selections (Selections.rotate this k))
    with (Selections.selections this).
  fold n.
  rewrite (indexOfFrom_lookup _ (Z.to_nat m) 0 s' Hd Hs'), Z.add_0_l.
  destruct (Z.eqb_spec n 0); [lia|].
  pose proof (Z.mod_pos_bound k n Hn) as Hkn.
  assert (Hsmall : n < 2 ^ 32) by exact Harray.
  rewrite roundToDouble_exact by lia.
  rewrite Z.rem_mod_nonneg by lia.
  assert (Hback : (Z.of_nat (Z.to_nat m) + (n - k mod n)) mod n
                  = Z.of_nat i).
  { rewrite Z2Nat.id by lia. unfold m. apply rotate_back_arith; lia. }
  rewrite Hback. unfold Selections.index.
  destruct (Z.ltb_spec (Z.of_nat i) 0); [lia|].
  rewrite Nat2Z.id. exact Hi.
Qed.

Lemma rotate_forward_law_witness :
  Selections.primarySelection
    (Selections.rotate
       (Selections.rotate
          (Selections.mk (Some (Examples.range 0 0 0 0 1))
             [Examples.range 0 0 0 0 1; Examples.range 1 0 2 0 3;
              Examples.range 2 0 4 0 5]) 5)
       (3 - 5 mod 3))
  = Some (Examples.range 0 0 0 0 1).
Proof.
  apply (rotate_forward_law
           (Selections.mk (Some (Examples.range 0 0 0 0 1))
              [Examples.range 0 0 0 0 1; Examples.range 1 0 2 0 3;
               Examples.range 2 0 4 0 5]) 0 (Examples.range 0 0 0 0 1) 5).
  - intros [|[|[|i]]] [|[|[|k]]] a b; simpl;
      intros [= <-] [= <-]; vm_compute; congruence.
  - reflexivity.
  - reflexivity.
  - lia.
  - vm_compute. reflexivity.
  - vm_compute. reflexivity.
Defined.

(** ** selections.ts: [lines] *)

Lemma absent_spec (x : Z) (l : list Z) :
  Selections.absent x l = true <-> x ∉ l.
Proof.
  unfold Selections.absent. rewrite negb_true_iff, list_elem_of_In.
  rewrite <- not_true_iff_false, existsb_exists.
  split.
  - intros H Hin. apply H. exists x. split; [exact Hin|apply Z.eqb_refl].
  - intros H (y & Hin & Hy). apply Z.eqb_eq in Hy. subst y. auto.
Qed.

Lemma start_line_le_endLine (s : Selection) : line (start s) <= endLine s.
Proof.
  pose proof (start_before_end s) as H. unfold endLine.
  destruct (Z.eqb_spec (line (start s)) (line (end_ s)));
    destruct (Z.eqb_spec (character (end_ s)) 0); simpl; order.
Qed.

Lemma linesBody_elem (acc : list Z) (s : Selection) (x : Z) :
  x ∈ Selections.linesBody acc s
  <-> x ∈ acc \/ line (start s) <= x <= endLine s.
Proof.
  pose proof (start_line_le_endLine s) as Hle.
  unfold Selections.linesBody.
  set (a := line (start s)) in *. set (e := endLine s) in *.
  set (l1 := if Selections.absent a acc then acc ++ [a] else acc).
  assert (H1 : forall y, y ∈ l1 <-> y ∈ acc \/ y = a).
  { intros y. unfold l1. destruct (Selections.absent a acc) eqn:E.
    - rewrite elem_of_app, list_elem_of_singleton. tauto.
    - apply not_true_iff_false in E. rewrite absent_spec in E.
      apply dec_stable in E. split; [auto|]. intros [H| ->]; auto. }
  set (l2 := l1 ++ seqZ (a + 1) (e - a - 1)).
  assert (H2 : forall y, y ∈ l2 <-> y ∈ acc \/ y = a \/ a < y < e).
  { intros y. unfold l2. rewrite elem_of_app, elem_of_seqZ, H1. intuition lia. }
  destruct (Z.eqb_spec e a) as [Hea|Hea]; simpl.
  - rewrite H2. intuition lia.
  - destruct (Selections.absent e l2) eqn:E.
    + rewrite elem_of_app, list_elem_of_singleton, H2. intuition lia.
    + apply not_true_iff_false in E. rewrite absent_spec in E.
      apply dec_stable in E. apply H2 in E.
      rewrite H2. split; [intuition lia|].
      intros [H|H]; [auto|].
      destruct (Z.eq_dec x e) as [->|Hne]; [|lia].
      destruct E as [E|E]; [auto|lia].
Qed.

Lemma foldl_linesBody_elem (l : list Selection) (acc : list Z) (x : Z) :
  x ∈ foldl Selections.linesBody acc l
  <-> x ∈ acc \/ exists s, s ∈ l /\ line (start s) <= x <= endLine s.
Proof.
  revert acc. induction l as [|s l IH]; intros acc; simpl.
  - split; [auto|]. intros [H|(s & Hs & _)]; [exact H|].
    apply elem_of_nil in Hs. contradiction.
  - rewrite IH, linesBody_elem. split.
    + intros [[H|H]|(s' & Hs' & H)]; [auto| |].
      * right. exists s. split; [apply list_elem_of_here|exact H].
      * right. exists s'. split; [apply list_elem_of_further, Hs'|exact H].
    + intros [H|(s' & Hs' & H)]; [auto|].
      apply elem_of_cons in Hs' as [->|Hs']; [auto|].
      right. exists s'. auto.
Qed.

(** X15: [lines] returns exactly the lines touched by the selections: a
    line is in the result if and only if it lies between the start line
    and [endLine] of one of the selections. *)
Theorem lines_elem (this : Selections.t) (x : Z) :
  x ∈ Selections.lines this
  <-> exists s, s ∈ Selections.selections this
                /\ line (start s) <= x <= endLine s.
Proof.
  unfold Selections.lines. rewrite foldl_linesBody_elem.
  split; [|auto]. intros [H|H]; [|exact H].
  apply elem_of_nil in H. contradiction.
Qed.

Lemma linesBody_NoDup (acc : list Z) (s : Selection) :
  NoDup acc -> (forall x, x ∈ acc -> x <= line (start s)) ->
  NoDup (Selections.linesBody acc s).
Proof.
  intros Hnd Hacc. unfold Selections.linesBody.
  set (a := line (start s)) in *. set (e := endLine s) in *.
  set (l1 := if Selections.absent a acc then acc ++ [a] else acc).
  assert (H1 : NoDup l1 /\ forall y, y ∈ l1 -> y <= a).
  { unfold l1. destruct (Selections.absent a acc) eqn:E; [|auto].
    apply absent_spec in E. split.
    - apply NoDup_app. split; [exact Hnd|]. split; [|apply NoDup_singleton].
      intros y Hy Hya. apply list_elem_of_singleton in Hya. subst y. auto.
    - intros y Hy. apply elem_of_app in Hy as [Hy|Hy]; [auto|].
      apply list_elem_of_singleton in Hy. lia. }
  destruct H1 as [Hnd1 Hle1].
  set (l2 := l1 ++ seqZ (a + 1) (e - a - 1)).
  assert (H2 : NoDup l2).
  { unfold l2. apply NoDup_app. split; [exact Hnd1|].
    split; [|apply NoDup_seqZ].
    intros y Hy Hseq. apply elem_of_seqZ in Hseq.
    specialize (Hle1 y Hy). lia. }
  destruct (negb (e =? a) && Selections.absent e l2) eqn:E; [|exact H2].
  apply andb_true_iff in E as [_ E]. apply absent_spec in E.
  apply NoDup_app. split; [exact H2|]. split; [|apply NoDup_singleton].
  intros y Hy Hye. apply list_elem_of_singleton in Hye. subst y. auto.
Qed.

Lemma foldl_linesBody_NoDup (l : list Selection) (acc : list Z) :
  NoDup acc ->
  StronglySorted linesNotAfter l ->
  (forall x s, x ∈ acc -> s ∈ l -> x <= line (start s)) ->
  NoDup (foldl Selections.linesBody acc l).
Proof.
  revert acc. induction l as [|s l IH]; intros acc Hnd Hs Hacc; simpl;
    [exact Hnd|].
  apply StronglySorted_cons in Hs as [Hsl Hl].
  apply IH; [|exact Hl|].
  - apply linesBody_NoDup; [exact Hnd|].
    intros x Hx. apply (Hacc x s Hx), list_elem_of_here.
  - intros x s' Hx Hs'. apply linesBody_elem in Hx as [Hx|Hx].
    + apply (Hacc x s' Hx), list_elem_of_further, Hs'.
    + rewrite Forall_forall in Hsl. specialize (Hsl s' Hs').
      unfold linesNotAfter in Hsl. lia.
Qed.

(** X16: when the lines of every selection end where the lines of the
    selections after it start, or before, [lines] returns no line twice. *)
Theorem lines_unique (this : Selections.t) :
  StronglySorted linesNotAfter (Selections.selections this) ->
  NoDup (Selections.lines this).
Proof.
  intros H. apply foldl_linesBody_NoDup; [apply NoDup_nil_2|exact H|].
  intros x s Hx. apply elem_of_nil in Hx. contradiction.
Qed.

Lemma lines_unique_witness :
  NoDup (Selections.lines
           (Selections.mk None
              [Examples.range 0 0 0 2 1; Examples.range 1 2 1 3 0])).
Proof.
  apply lines_unique. simpl.
  apply StronglySorted_cons. split.
  - apply Forall_singleton. vm_compute. discriminate.
  - apply StronglySorted_cons. split; [apply Forall_nil_2|constructor].
Defined.

(** ** selections.ts: [shiftEmptyLeft] *)

Lemma previous_is_before (fresh : nat) (p q : Position) (doc : Document) :
  previous fresh p doc = Some q -> isBefore q p = true.
Proof.
  unfold previous.
  destruct (Z.ltb_spec 0 (character p)).
  - intros [= <-]. order.
  - destruct (Z.leb_spec (line p) 0); [discriminate|].
    destruct (lineAt doc (line p - 1)); simpl; [|discriminate].
    intros [= <-]. order.
Qed.

(** X17: [shiftEmptyLeft] keeps the number of selections and leaves every
    selection that is not empty as it is.  An empty selection is left as it
    is exactly when its position has no previous position; otherwise it is
    replaced by a new empty selection at the previous position, which is
    strictly before the old one: inside a line, the position one column to
    the left. *)
Theorem shiftEmptyLeft_spec (new fresh : nat -> nat) (l : list Selection)
  (doc : Document) (i : nat) (s : Selection) :
  let l' := Selections.shiftEmptyLeft new fresh l doc in
  length l' = length l
  /\ (l !! i = Some s ->
      (isEmpty s = false -> l' !! i = Some s)
      /\ (isEmpty s = true ->
          previous (fresh i) (active s) doc = None -> l' !! i = Some s)
      /\ (isEmpty s = true ->
          forall q, previous (fresh i) (active s) doc = Some q ->
                    l' !! i = Some (mkSelection q q (new i))
                    /\ isEmpty (mkSelection q q (new i)) = true
                    /\ isBefore q (active s) = true)
      /\ (isEmpty s = true -> 0 < character (active s) ->
          l' !! i
          = Some (empty (new i)
                    (at_ (line (active s)) (character (active s) - 1)
                         (fresh i))))).
Proof.
  intros l'. unfold l', Selections.shiftEmptyLeft.
  split; [apply length_imap|].
  intros Hi. rewrite list_lookup_imap, Hi. simpl.
  split; [intros ->; reflexivity|].
  split; [intros -> ->; reflexivity|].
  split.
  - intros -> q Hq. rewrite Hq. split; [reflexivity|].
    split; [|eapply previous_is_before, Hq].
    unfold isEmpty, start, end_. simpl.
    destruct (isBefore q q); order.
  - intros -> Hc. unfold previous.
    apply Z.ltb_lt in Hc. rewrite Hc. reflexivity.
Qed.

Lemma shiftEmptyLeft_spec_witness :
  Selections.shiftEmptyLeft Examples.built (fun i => (50 + i)%nat)
    [Examples.caret 0 0 2; Examples.range 1 0 0 0 1] Examples.abcd
    !! 0%nat
  = Some (empty (Examples.built 0) (at_ 0 1 50)).
Proof.
  destruct (shiftEmptyLeft_spec Examples.built (fun i => (50 + i)%nat)
              [Examples.caret 0 0 2; Examples.range 1 0 0 0 1]
              Examples.abcd 0 (Examples.caret 0 0 2)) as [_ H].
  destruct H as (_ & _ & _ & H); [reflexivity|].
  apply H; [reflexivity|simpl; lia].
Defined.

(** ** selections.ts: more on the merge engine *)

Lemma StronglySorted_lookup {A : Type} (R : A -> A -> Prop) (l : list A)
  (i k : nat) (a b : A) :
  StronglySorted R l -> (i < k)%nat ->
  l !! i = Some a -> l !! k = Some b -> R a b.
Proof.
  intros Hs. revert i k. induction Hs as [|x l Hs IH Hx]; intros i k Hik Hi Hk;
    [discriminate|].
  destruct k as [|k]; [lia|]. simpl in Hk.
  destruct i as [|i]; simpl in Hi.
  - injection Hi as <-. rewrite Forall_forall in Hx.
    apply Hx. eapply list_elem_of_lookup_2, Hk.
  - apply (IH i k); auto. lia.
Qed.

(** The selections of the result of [merge] come from the scan as
    [keepsLeftDirection] describes. *)
Lemma merge_produces (new : nat -> nat)
  (options : Selections.MergeOptions)
  (this result : Selections.t) :
  Selections.merge new options this = Some result ->
  Selections.primarySelection result = Selections.primarySelection this
  /\ Forall (keepsLeftDirection new options (Selections.selections this))
            (Selections.selections result).
Proof.
  unfold Selections.merge.
  destruct (Selections.outerLoop _ _ _ _ _ _ _) as [acc|] eqn:Hloop;
    simpl; [|discriminate].
  intros [= <-]. simpl. split; [reflexivity|].
  destruct acc.2 as [l|] eqn:Hl; simpl.
  - eapply outerLoop_keepsLeftDirection; [|exact Hloop|exact Hl].
    simpl. discriminate.
  - apply inputs_keepLeftDirection.
Qed.

Section MergeSize.

Import Selections.

Variable new : nat -> nat.
Variable options : MergeOptions.
Variable this : list Selection.

Lemma outerBody_size (fuel i : nat)
  (acc acc' : list Z * option (list Selection)) :
  sizeInvariant i acc ->
  outerBody new fuel options this i acc = Some acc' ->
  sizeInvariant (S i) acc'.
Proof.
  intros Hacc. unfold outerBody.
  assert (Hkeep : sizeInvariant (S i) acc).
  { intros l Hl. destruct (Hacc l Hl) as (? & ? & ?). lia. }
  destruct (decide (acc.1 !! i = Some 1)); [intros [= <-]; exact Hkeep|].
  destruct (this !! i) as [a|] eqn:Ha; [|intros [= <-]; exact Hkeep].
  fold (scanFrom i a acc).
  destruct (innerLoop fuel options this i (scanFrom i a acc))
    as [st|] eqn:Hrun; simpl; [|discriminate].
  intros [= <-]. intros l. simpl.
  assert (Hbase : forall l0, newSelections st = Some l0 ->
                             (length l0 <= i)%nat).
  { intros l0 Hl0.
    destruct (innerLoop_newSelections _ _ _ _ _ _ Hrun) as [H|H].
    - simpl in H. rewrite Hl0 in H. symmetry in H.
      destruct (Hacc l0 H) as (_ & _ & ?). lia.
    - rewrite H in Hl0. injection Hl0 as <-. rewrite length_take. lia. }
  destruct (changed st).
  - intros [= <-]. rewrite length_app. simpl.
    destruct (newSelections st) as [l0|]; simpl.
    + specialize (Hbase l0 eq_refl). lia.
    + rewrite length_take. lia.
  - destruct (newSelections st) as [l0|]; [|discriminate].
    intros [= <-]. rewrite length_app. simpl.
    specialize (Hbase l0 eq_refl). lia.
Qed.

Lemma outerLoop_size (n fuel i : nat)
  (acc acc' : list Z * option (list Selection)) :
  sizeInvariant i acc ->
  outerLoop new n fuel options this i acc = Some acc' ->
  sizeInvariant (n + i) acc'.
Proof.
  revert i acc. induction n as [|n IH]; intros i acc Hacc; simpl.
  - intros [= <-]. exact Hacc.
  - destruct (outerBody new fuel options this i acc) as [acc1|] eqn:Hbody;
      simpl; [|discriminate].
    intros Hloop. replace (S (n + i)) with (n + S i)%nat by lia.
    eapply IH; [|exact Hloop]. eapply outerBody_size; eauto.
Qed.

End MergeSize.

(** X18: [merge] returns on every collection, with either option; the
    result has the primary selection it had (also when that selection was
    merged away), at most as many selections as before, and at least one
    selection unless the collection had none. *)
Theorem merge_size (new : nat -> nat)
  (options : Selections.MergeOptions) (this : Selections.t) :
  exists result,
    Selections.merge new options this = Some result
    /\ Selections.primarySelection result = Selections.primarySelection this
    /\ (length (Selections.selections result)
        <= length (Selections.selections this))%nat
    /\ (Selections.selections this <> [] ->
        Selections.selections result <> []).
Proof.
  destruct (merge_total new options this) as [result Hr].
  exists result. split; [exact Hr|].
  unfold Selections.merge in Hr.
  destruct (Selections.outerLoop _ _ _ _ _ _ _) as [acc|] eqn:Hloop;
    simpl in Hr; [|discriminate].
  injection Hr as <-. simpl. split; [reflexivity|].
  apply outerLoop_size in Hloop; [|intros l; simpl; discriminate].
  destruct acc.2 as [l|] eqn:Hl; simpl; [|auto].
  destruct (Hloop l Hl) as (_ & Hpos & Hle).
  split; [lia|]. intros _ ->. simpl in Hpos. lia.
Qed.

Lemma merge_size_witness :
  exists result,
    Selections.merge Examples.built (Selections.mkOptions true)
      (Selections.mk None [Examples.range 0 0 0 0 2]) = Some result
    /\ Selections.selections result <> [].
Proof.
  destruct (merge_size Examples.built (Selections.mkOptions true)
              (Selections.mk None [Examples.range 0 0 0 0 2]))
    as (result & Hr & _ & _ & Hne).
  exists result. split; [exact Hr|]. apply Hne. simpl. discriminate.
Defined.

Section MergeSeparated.

Import Selections.

Variable new : nat -> nat.
Variable options : MergeOptions.
Variable this : list Selection.

Lemma innerBody_skip (i : nat) (b : Selection) (st : Scan) :
  boundsInOrder st ->
  isBefore (aEnd st) (start b) = true ->
  innerBody options this i b st = continue_ st.
Proof.
  unfold boundsInOrder, innerBody. intros Hb Hsep.
  pose proof (start_before_end b) as Hbe.
  destruct (decide (ignoreSelections st !! j st = Some 1)); [reflexivity|].
  destruct (aIsEmpty st).
  - destruct (isEqual (start b) (end_ b)).
    + replace (isEqual (start b) (aStart st)) with false; [reflexivity|].
      clear Hbe. order.
    + replace (isBeforeOrEqual (start b) (aStart st)) with false;
        [reflexivity|]. clear Hbe. order.
  - replace (isAfterOrEqual (aStart st) (start b)) with false
      by (clear Hbe; order).
    replace (isAfter (aEnd st) (start b)) with false by (clear Hbe Hb; order).
    replace (isEqual (aEnd st) (start b)) with false by (clear Hbe Hb; order).
    simpl. rewrite andb_false_r. reflexivity.
Qed.

Lemma innerLoop_skip (fuel i : nat) (st st' : Scan) :
  boundsInOrder st ->
  (forall k b, (j st <= k)%nat -> this !! k = Some b ->
               isBefore (aEnd st) (start b) = true) ->
  innerLoop fuel options this i st = Some st' ->
  changed st' = changed st
  /\ ignoreSelections st' = ignoreSelections st
  /\ newSelections st' = newSelections st.
Proof.
  revert st. induction fuel as [|fuel IH]; intros st Hb Hsep; simpl.
  - destruct (this !! j st); [discriminate|]. intros [= <-]; auto.
  - destruct (this !! j st) as [b|] eqn:Hj; [|intros [= <-]; auto].
    rewrite (innerBody_skip i b st Hb (Hsep _ b (Nat.le_refl _) Hj)).
    intros Hrun. apply IH in Hrun; [exact Hrun|exact Hb|].
    intros k b' Hk. apply Hsep. simpl in Hk. lia.
Qed.

Lemma outerBody_separated (fuel i : nat)
  (acc acc' : list Z * option (list Selection)) :
  StronglySorted strictlyBefore this ->
  acc.2 = None ->
  outerBody new fuel options this i acc = Some acc' ->
  acc' = acc.
Proof.
  intros Hs Hnone. unfold outerBody.
  destruct (decide (acc.1 !! i = Some 1)); [congruence|].
  destruct (this !! i) as [a|] eqn:Ha; [|congruence].
  fold (scanFrom i a acc).
  destruct (innerLoop fuel options this i (scanFrom i a acc))
    as [st|] eqn:Hrun; simpl; [|discriminate].
  apply innerLoop_skip in Hrun as (Hc & Hi & Hn).
  - simpl in Hc, Hi, Hn. rewrite Hc, Hn, Hnone, Hi.
    intros [= <-]. destruct acc; simpl in *; congruence.
  - apply scanFrom_boundsInOrder.
  - simpl. intros k b Hk Hb.
    apply (StronglySorted_lookup strictlyBefore this i k a b Hs); auto.
Qed.

Lemma outerLoop_separated (n fuel i : nat)
  (acc acc' : list Z * option (list Selection)) :
  StronglySorted strictlyBefore this ->
  acc.2 = None ->
  outerLoop new n fuel options this i acc = Some acc' ->
  acc' = acc.
Proof.
  intros Hs. revert i acc. induction n as [|n IH]; intros i acc Hnone; simpl.
  - congruence.
  - destruct (outerBody new fuel options this i acc) as [acc1|] eqn:Hbody;
      simpl; [|discriminate].
    apply outerBody_separated in Hbody; auto. subst acc1.
    apply IH, Hnone.
Qed.

End MergeSeparated.

(** X19: on a collection in which every selection ends strictly before
    the selections after it start, [merge] returns the collection as it is,
    with either option. *)
Theorem merge_separated_unchanged (new : nat -> nat)
  (options : Selections.MergeOptions)
  (this : Selections.t) :
  StronglySorted strictlyBefore (Selections.selections this) ->
  Selections.merge new options this = Some this.
Proof.
  intros Hs. destruct (merge_total new options this) as [result Hr].
  rewrite Hr. f_equal.
  unfold Selections.merge in Hr.
  destruct (Selections.outerLoop _ _ _ _ _ _ _) as [acc|] eqn:Hloop;
    simpl in Hr; [|discriminate].
  apply outerLoop_separated in Hloop; auto. subst acc.
  injection Hr as <-. destruct this; reflexivity.
Qed.

Lemma merge_separated_unchanged_witness :
  Selections.merge Examples.built (Selections.mkOptions true)
    (Selections.mk None [Examples.range 0 0 0 0 2; Examples.range 1 0 3 0 4])
  = Some
      (Selections.mk None
         [Examples.range 0 0 0 0 2; Examples.range 1 0 3 0 4]).
Proof.
  apply merge_separated_unchanged. simpl.
  apply StronglySorted_cons. split.
  - apply Forall_singleton. reflexivity.
  - apply StronglySorted_cons. split; [apply Forall_nil_2|constructor].
Defined.

Section MergeEndpoints.

Import Selections.

Variable new : nat -> nat.
Variable options : MergeOptions.
Variable this : list Selection.

Lemma endpointOf_start_end (s : Selection) :
  s ∈ this ->
  endpointOf this (start s) /\ endpointOf this (end_ s)
  /\ endpointOf this (anchor s) /\ endpointOf this (active s).
Proof.
  intros Hs. unfold endpointOf.
  destruct (start_end_cases s) as [(Ha & Hb & _)|(Ha & Hb & _)];
    repeat split; exists s; split; auto.
Qed.

Lemma innerBody_endpoints (i : nat) (b : Selection) (st : Scan) :
  b ∈ this ->
  endpointOf this (aStart st) /\ endpointOf this (aEnd st) ->
  endpointOf this (aStart (innerBody options this i b st))
  /\ endpointOf this (aEnd (innerBody options this i b st)).
Proof.
  intros Hb [Hs He].
  destruct (endpointOf_start_end b Hb) as (Hbs & Hbe & _).
  unfold innerBody.
  repeat match goal with
         | |- context [ if ?c then _ else _ ] => destruct c
         end; simpl; auto.
Qed.

Lemma innerLoop_endpoints (fuel i : nat) (st st' : Scan) :
  endpointOf this (aStart st) /\ endpointOf this (aEnd st) ->
  innerLoop fuel options this i st = Some st' ->
  endpointOf this (aStart st') /\ endpointOf this (aEnd st').
Proof.
  revert st. induction fuel as [|fuel IH]; intros st Hst; simpl.
  - destruct (this !! j st); [discriminate|]. intros [= <-]; auto.
  - destruct (this !! j st) as [b|] eqn:Hj; [|intros [= <-]; auto].
    apply IH, innerBody_endpoints; [|exact Hst].
    eapply list_elem_of_lookup_2, Hj.
Qed.

End MergeEndpoints.

(** X20: [merge] builds no position: the anchor and the active position
    of every selection of the result are start or end position objects of
    selections of the collection it was called on. *)
Theorem merge_no_new_positions (new : nat -> nat)
  (options : Selections.MergeOptions)
  (this result : Selections.t) (o : Selection) :
  Selections.merge new options this = Some result ->
  o ∈ Selections.selections result ->
  endpointOf (Selections.selections this) (anchor o)
  /\ endpointOf (Selections.selections this) (active o).
Proof.
  intros Hm Ho.
  destruct (merge_produces _ _ _ _ Hm) as [_ Hall].
  rewrite Forall_forall in Hall.
  destruct (Hall o Ho) as (i & a & [Ha Hprod] & _).
  apply list_elem_of_lookup_2 in Ha.
  destruct (endpointOf_start_end _ a Ha) as (Hs & He & Han & Hac).
  destruct Hprod as [->|(acc & st & Hrun & _ & ->)]; [auto|].
  apply innerLoop_endpoints in Hrun; [|simpl; auto].
  destruct Hrun as [Hs' He'].
  unfold fromStartEnd. destruct (isReversed a); simpl; auto.
Qed.

Lemma merge_no_new_positions_witness :
  endpointOf [Examples.range 0 0 0 0 2; Examples.range 1 0 2 0 4]
             (active Examples.merged04).
Proof.
  destruct (merge_no_new_positions Examples.built (Selections.mkOptions true)
              (Selections.mk None
                 [Examples.range 0 0 0 0 2; Examples.range 1 0 2 0 4])
              (Selections.mk None [Examples.merged04])
              Examples.merged04) as [_ H].
  - reflexivity.
  - apply list_elem_of_here.
  - exact H.
Defined.

(** The comparisons of positions as statements on their coordinates. *)
Lemma isBefore_true (p q : Position) :
  isBefore p q = true
  <-> line p < line q \/ (line p = line q /\ character p < character q).
Proof. unfold isBefore. order_cases; intuition (try discriminate; lia). Qed.

Lemma isBefore_false (p q : Position) :
  isBefore p q = false
  <-> line q < line p \/ (line p = line q /\ character q <= character p).
Proof. unfold isBefore. order_cases; intuition (try discriminate; lia). Qed.

Lemma isBeforeOrEqual_true (p q : Position) :
  isBeforeOrEqual p q = true
  <-> line p < line q \/ (line p = line q /\ character p <= character q).
Proof.
  unfold isBeforeOrEqual. order_cases; intuition (try discriminate; lia).
Qed.

Lemma isBeforeOrEqual_false (p q : Position) :
  isBeforeOrEqual p q = false
  <-> line q < line p \/ (line p = line q /\ character q < character p).
Proof.
  unfold isBeforeOrEqual. order_cases; intuition (try discriminate; lia).
Qed.

Lemma isEqual_true (p q : Position) :
  isEqual p q = true <-> line p = line q /\ character p = character q.
Proof. unfold isEqual. order_cases; intuition (try discriminate; lia). Qed.

Lemma isEqual_false (p q : Position) :
  isEqual p q = false <-> line p <> line q \/ character p <> character q.
Proof. unfold isEqual. order_cases; intuition (try discriminate; lia). Qed.

Ltac coordinates :=
  unfold isAfter, isAfterOrEqual in *;
  repeat match goal with
    | H : negb _ = true |- _ => apply negb_true_iff in H
    | H : negb _ = false |- _ => apply negb_false_iff in H
    | H : isBefore _ _ = true |- _ => apply isBefore_true in H
    | H : isBefore _ _ = false |- _ => apply isBefore_false in H
    | H : isBeforeOrEqual _ _ = true |- _ => apply isBeforeOrEqual_true in H
    | H : isBeforeOrEqual _ _ = false |- _ => apply isBeforeOrEqual_false in H
    | H : isEqual _ _ = true |- _ => apply isEqual_true in H
    | H : isEqual _ _ = false |- _ => apply isEqual_false in H
    | |- negb _ = true => apply negb_true_iff
    | |- negb _ = false => apply negb_false_iff
    | |- false = _ => symmetry
    | |- true = _ => symmetry
    | |- isBefore _ _ = true => apply isBefore_true
    | |- isBefore _ _ = false => apply isBefore_false
    | |- isBeforeOrEqual _ _ = true => apply isBeforeOrEqual_true
    | |- isBeforeOrEqual _ _ = false => apply isBeforeOrEqual_false
    | |- isEqual _ _ = true => apply isEqual_true
    | |- isEqual _ _ = false => apply isEqual_false
    end;
  try lia.

Section MergeSorted.

Import Selections.

Variable new : nat -> nat.
Variable options : MergeOptions.
Variable this : list Selection.
Hypothesis this_sorted : StronglySorted startsNotAfter this.

Lemma innerBody_advances (i : nat) (b : Selection) (st : Scan) :
  (i < j st)%nat -> (i < j (innerBody options this i b st))%nat.
Proof.
  intros H. unfold innerBody.
  repeat match goal with
         | |- context [ if ?c then _ else _ ] => destruct c
         end; simpl; lia.
Qed.

(** On a sorted array the scan never moves the start of the selection
    under construction, and only moves its end forward. *)
Lemma innerBody_sorted (i : nat) (a b : Selection) (st : Scan) :
  startsNotAfter a b ->
  boundsInOrder st ->
  isEqual (aStart st) (start a) = true
  /\ isBeforeOrEqual (end_ a) (aEnd st) = true ->
  isEqual (aStart (innerBody options this i b st)) (start a) = true
  /\ isBeforeOrEqual (end_ a) (aEnd (innerBody options this i b st)) = true.
Proof.
  unfold startsNotAfter, boundsInOrder, innerBody. intros Hab Hb [Hs He].
  pose proof (start_before_end b) as Hbe.
  destruct (decide (ignoreSelections st !! j st = Some 1)); [auto|].
  destruct (aIsEmpty st).
  - destruct (isEqual (start b) (end_ b)).
    + destruct (isEqual (start b) (aStart st)); simpl; auto.
    + destruct (isBeforeOrEqual (start b) (aStart st)
                && isAfterOrEqual (end_ b) (start b)) eqn:C; simpl; [|auto].
      apply andb_true_iff in C as [C _]. split; coordinates.
  - destruct (isAfterOrEqual (aStart st) (start b)
              && (isBefore (aStart st) (end_ b)
                  || alsoMergeConsecutiveSelections options
                     && isEqual (aStart st) (end_ b))) eqn:C1.
    + apply andb_true_iff in C1 as [C1 _].
      destruct (isBeforeOrEqual (aEnd st) (end_ b)) eqn:C2; simpl.
      * split; coordinates.
      * destruct (isEqual (aStart st) (start b)); simpl; [auto|].
        split; [coordinates|auto].
    + destruct ((isAfter (aEnd st) (start b)
                 || alsoMergeConsecutiveSelections options
                    && isEqual (aEnd st) (start b))
                && isBeforeOrEqual (aEnd st) (end_ b)) eqn:C2; simpl;
        [|auto].
      apply andb_true_iff in C2 as [_ C2]. split; [auto|]. clear C1.
      coordinates.
Qed.

Lemma innerLoop_sorted (fuel i : nat) (a : Selection) (st st' : Scan) :
  this !! i = Some a ->
  (i < j st)%nat ->
  boundsInOrder st ->
  isEqual (aStart st) (start a) = true
  /\ isBeforeOrEqual (end_ a) (aEnd st) = true ->
  innerLoop fuel options this i st = Some st' ->
  isEqual (aStart st') (start a) = true
  /\ isBeforeOrEqual (end_ a) (aEnd st') = true.
Proof.
  intros Ha. revert st.
  induction fuel as [|fuel IH]; intros st Hj Hb Hst; simpl.
  - destruct (this !! j st); [discriminate|]. intros [= <-]; auto.
  - destruct (this !! j st) as [b|] eqn:Hjb; [|intros [= <-]; auto].
    apply IH.
    + apply innerBody_advances, Hj.
    + apply innerBody_boundsInOrder, Hb.
    + apply innerBody_sorted; auto.
      apply (StronglySorted_lookup startsNotAfter this i (j st) a b); auto.
Qed.

Lemma extends_refl (a : Selection) : extends a a.
Proof.
  pose proof (start_before_end a).
  unfold extends. repeat split; coordinates.
Qed.

Lemma outerBody_sorted (fuel i : nat)
  (acc acc' : list Z * option (list Selection)) :
  (forall l, acc.2 = Some l ->
             exists sub, sub `sublist_of` take i this
                         /\ Forall2 extends l sub) ->
  outerBody new fuel options this i acc = Some acc' ->
  forall l, acc'.2 = Some l ->
            exists sub, sub `sublist_of` take (S i) this
                        /\ Forall2 extends l sub.
Proof.
  intros Hacc. unfold outerBody.
  assert (Hstep : take i this `sublist_of` take (S i) this).
  { destruct (this !! i) as [a|] eqn:Ha.
    - rewrite (take_S_r _ _ _ Ha). apply sublist_inserts_r. reflexivity.
    - apply lookup_ge_None in Ha. rewrite !take_ge by lia. reflexivity. }
  assert (Hkeep : forall l, acc.2 = Some l ->
            exists sub, sub `sublist_of` take (S i) this
                        /\ Forall2 extends l sub).
  { intros l Hl. destruct (Hacc l Hl) as (sub & Hsub & Hall).
    exists sub. split; [etransitivity; eauto|exact Hall]. }
  destruct (decide (acc.1 !! i = Some 1)); [intros [= <-]; exact Hkeep|].
  destruct (this !! i) as [a|] eqn:Ha; [|intros [= <-]; exact Hkeep].
  fold (scanFrom i a acc).
  destruct (innerLoop fuel options this i (scanFrom i a acc))
    as [st|] eqn:Hrun; simpl; [|discriminate].
  intros [= <-]. simpl. intros l.
  destruct (innerLoop_invariant _ _ _ _ _ _ Hrun
              (scanFrom_boundsInOrder i a acc)) as [Hb He].
  pose proof (start_before_end a) as Hse.
  destruct (innerLoop_sorted fuel i a (scanFrom i a acc) st Ha)
    as [Hs1 Hs2];
    [unfold scanFrom; simpl; lia|apply scanFrom_boundsInOrder
    |unfold scanFrom; simpl; split; coordinates|exact Hrun|].
  assert (Hbase : exists sub, sub `sublist_of` take i this
            /\ Forall2 extends (default (take i this) (newSelections st)) sub).
  { destruct (innerLoop_newSelections _ _ _ _ _ _ Hrun) as [H|H].
    - simpl in H. rewrite H. destruct acc.2 as [l0|] eqn:Hl0; simpl.
      + apply Hacc. reflexivity.
      + exists (take i this). split; [reflexivity|].
        apply Forall2_same_length_lookup_2; [reflexivity|].
        intros k x y Hx Hy. rewrite Hx in Hy. injection Hy as <-.
        apply extends_refl.
    - rewrite H. simpl. exists (take i this). split; [reflexivity|].
      apply Forall2_same_length_lookup_2; [reflexivity|].
      intros k x y Hx Hy. rewrite Hx in Hy. injection Hy as <-.
      apply extends_refl. }
  destruct Hbase as (sub & Hsub & Hall).
  rewrite (take_S_r _ _ _ Ha).
  destruct (changed st).
  - intros [= <-]. exists (sub ++ [a]). split.
    + apply sublist_app; [exact Hsub|reflexivity].
    + apply Forall2_app; [exact Hall|]. constructor; [|constructor].
      destruct (fromStartEnd_direction (new i) (aStart st) (aEnd st) a
                  (aIsEmpty st))
        as (H1 & H2 & H3); auto.
      unfold extends. rewrite H1, H2, H3. auto.
  - destruct (newSelections st) as [l0|]; [|discriminate].
    intros [= <-]. exists (sub ++ [a]). split.
    + apply sublist_app; [exact Hsub|reflexivity].
    + apply Forall2_app; [exact Hall|]. constructor; [|constructor].
      apply extends_refl.
Qed.

Lemma outerLoop_sorted (n fuel i : nat)
  (acc acc' : list Z * option (list Selection)) :
  (forall l, acc.2 = Some l ->
             exists sub, sub `sublist_of` take i this
                         /\ Forall2 extends l sub) ->
  outerLoop new n fuel options this i acc = Some acc' ->
  forall l, acc'.2 = Some l ->
            exists sub, sub `sublist_of` take (n + i) this
                        /\ Forall2 extends l sub.
Proof.
  revert i acc. induction n as [|n IH]; intros i acc Hacc; simpl.
  - intros [= <-]. exact Hacc.
  - destruct (outerBody new fuel options this i acc) as [acc1|] eqn:Hbody;
      simpl; [|discriminate].
    intros Hloop. replace (S (n + i)) with (n + S i)%nat by lia.
    eapply IH; [|exact Hloop]. eapply outerBody_sorted; eauto.
Qed.

End MergeSorted.

Lemma StronglySorted_sublist {A : Type} (R : A -> A -> Prop)
  (sub l : list A) :
  sub `sublist_of` l -> StronglySorted R l -> StronglySorted R sub.
Proof.
  induction 1 as [|x l1 l2 Hsub IH|x l1 l2 Hsub IH]; intros Hs.
  - constructor.
  - apply StronglySorted_cons in Hs as [Hx Hs].
    apply StronglySorted_cons. split; [|auto].
    rewrite Forall_forall in *. intros y Hy.
    apply Hx. eapply elem_of_sublist; eauto.
  - apply StronglySorted_cons in Hs as [_ Hs]. auto.
Qed.

Lemma extends_sorted (l sub : list Selection) :
  Forall2 extends l sub ->
  StronglySorted startsNotAfter sub -> StronglySorted startsNotAfter l.
Proof.
  induction 1 as [|o s l sub Hos Hall IH]; intros Hs; [constructor|].
  apply StronglySorted_cons in Hs as [Hx Hs].
  apply StronglySorted_cons. split; [|auto].
  rewrite Forall_forall in *. intros o' Ho'.
  apply list_elem_of_lookup in Ho' as [k Hk].
  destruct (Forall2_lookup_l _ _ _ _ _ Hall Hk) as (s' & Hs' & Hos').
  apply list_elem_of_lookup_2 in Hs'. specialize (Hx s' Hs').
  unfold startsNotAfter, extends in *.
  destruct Hos as (H1 & _ & _). destruct Hos' as (H2 & _ & _).
  coordinates.
Qed.

(** X21: on a collection ordered by start, [merge] with either option
    returns a collection ordered by start; its selections stand, in order,
    for some of the selections of the input: each starts where that
    selection starts, ends where it ends or later, and has its
    direction. *)
Theorem merge_keeps_sorted (new : nat -> nat)
  (options : Selections.MergeOptions)
  (this result : Selections.t) :
  StronglySorted startsNotAfter (Selections.selections this) ->
  Selections.merge new options this = Some result ->
  StronglySorted startsNotAfter (Selections.selections result)
  /\ exists sub,
       sub `sublist_of` Selections.selections this
       /\ Forall2 extends (Selections.selections result) sub.
Proof.
  intros Hs Hm.
  assert (Hsub : exists sub,
             sub `sublist_of` Selections.selections this
             /\ Forall2 extends (Selections.selections result) sub).
  { unfold Selections.merge in Hm.
    destruct (Selections.outerLoop _ _ _ _ _ _ _) as [acc|] eqn:Hloop;
      simpl in Hm; [|discriminate].
    injection Hm as <-. simpl.
    destruct acc.2 as [l|] eqn:Hl; simpl.
    - eapply outerLoop_sorted in Hloop; [|exact Hs| |exact Hl].
      + rewrite take_ge in Hloop by lia. exact Hloop.
      + simpl. discriminate.
    - exists (Selections.selections this). split; [reflexivity|].
      apply Forall2_same_length_lookup_2; [reflexivity|].
      intros k x y Hx Hy. rewrite Hx in Hy. injection Hy as <-.
      apply extends_refl. }
  split; [|exact Hsub].
  destruct Hsub as (sub & Hsub & Hall).
  eapply extends_sorted; [exact Hall|].
  eapply StronglySorted_sublist; eauto.
Qed.

Lemma merge_keeps_sorted_witness :
  StronglySorted startsNotAfter [Examples.merged04].
Proof.
  destruct (merge_keeps_sorted Examples.built (Selections.mkOptions true)
              (Selections.mk None
                 [Examples.range 0 0 0 0 2; Examples.range 1 0 2 0 4])
              (Selections.mk None [Examples.merged04]))
    as [H _].
  - simpl. apply StronglySorted_cons. split.
    + apply Forall_singleton. reflexivity.
    + apply StronglySorted_cons. split; [apply Forall_nil_2|constructor].
  - reflexivity.
  - exact H.
Defined.

Section MergeCovers.

Import Selections.

Variable new : nat -> nat.
Variable options : MergeOptions.
Variable this : list Selection.

(** One run of the inner body at a selection [b] that does not start
    before [a]: the bounds only widen, and [b] is enclosed by them if it
    gets marked. *)
Lemma innerBody_widens (i : nat) (a b : Selection) (st : Scan) :
  startsNotAfter a b ->
  boundsInOrder st ->
  isEqual (aStart st) (start a) = true ->
  let st' := innerBody options this i b st in
  isBeforeOrEqual (aStart st') (aStart st) = true
  /\ isBeforeOrEqual (aEnd st) (aEnd st') = true
  /\ (ignoreSelections st' = ignoreSelections st
      \/ (ignoreSelections st' = <[j st := 1]> (ignoreSelections st)
          /\ within st' b)).
Proof.
  unfold startsNotAfter, boundsInOrder, innerBody, within.
  intros Hab Hb Hs. simpl.
  pose proof (start_before_end b) as Hbe.
  assert (Hrs : isBeforeOrEqual (aStart st) (aStart st) = true)
    by coordinates.
  assert (Hre : isBeforeOrEqual (aEnd st) (aEnd st) = true) by coordinates.
  destruct (decide (ignoreSelections st !! j st = Some 1)); [auto|].
  destruct (aIsEmpty st).
  - destruct (isEqual (start b) (end_ b)) eqn:Eb.
    + destruct (isEqual (start b) (aStart st)) eqn:Ea; simpl; [|auto].
      repeat split; auto. right. repeat split; auto; coordinates.
    + destruct (isBeforeOrEqual (start b) (aStart st)
                && isAfterOrEqual (end_ b) (start b)) eqn:C; simpl; [|auto].
      apply andb_true_iff in C as [C _].
      repeat split; auto; try right; repeat split; auto; coordinates.
  - destruct (isAfterOrEqual (aStart st) (start b)
              && (isBefore (aStart st) (end_ b)
                  || alsoMergeConsecutiveSelections options
                     && isEqual (aStart st) (end_ b))) eqn:C1.
    + apply andb_true_iff in C1 as [C1 _].
      destruct (isBeforeOrEqual (aEnd st) (end_ b)) eqn:C2; simpl.
      * repeat split; auto; try right; repeat split; auto; coordinates.
      * destruct (isEqual (aStart st) (start b)) eqn:C3; simpl.
        -- repeat split; auto. right. repeat split; auto; coordinates.
        -- repeat split; auto; try right; repeat split; auto; coordinates.
    + destruct ((isAfter (aEnd st) (start b)
                 || alsoMergeConsecutiveSelections options
                    && isEqual (aEnd st) (start b))
                && isBeforeOrEqual (aEnd st) (end_ b)) eqn:C2; simpl;
        [|auto].
      apply andb_true_iff in C2 as [_ C2].
      repeat split; auto; try right; repeat split; auto; coordinates.
Qed.

(** While [changed] is false the bounds are untouched; while there is
    also no new array, nothing was marked.  The new array, once there, is
    never replaced by the inner loop. *)
Lemma innerBody_unchanged (i : nat) (b : Selection) (st : Scan) :
  let st' := innerBody options this i b st in
  (changed st' = false ->
   changed st = false /\ aStart st' = aStart st /\ aEnd st' = aEnd st
   /\ (newSelections st' = None ->
       ignoreSelections st' = ignoreSelections st))
  /\ (newSelections st' = newSelections st
      \/ (newSelections st = None
          /\ newSelections st' = Some (take i this))).
Proof.
  unfold innerBody. simpl.
  repeat match goal with
         | |- context [ if ?c then _ else _ ] => destruct c
         end; simpl; split; auto; try discriminate;
    destruct (newSelections st); auto; intros; repeat split; auto;
    discriminate.
Qed.

Lemma innerBody_coverInvariant (i : nat) (a b : Selection)
  (acc : list Z * option (list Selection)) (st : Scan) :
  startsNotAfter a b ->
  this !! j st = Some b ->
  boundsInOrder st ->
  isEqual (aStart st) (start a) = true ->
  coverInvariant this i a acc st ->
  coverInvariant this i a acc (innerBody options this i b st).
Proof.
  intros Hab Hjb Hb Hs (Ha & Hign & Hch & Hnone & Hnew).
  destruct (innerBody_widens i a b st Hab Hb Hs) as (Hw1 & Hw2 & Hw3).
  destruct (innerBody_unchanged i b st) as [Hu1 Hu2].
  assert (Hmono : forall s, within st s ->
                            within (innerBody options this i b st) s).
  { unfold within. intros s [H1 H2]. split; coordinates. }
  unfold coverInvariant. split; [auto|]. split; [|split; [|split]].
  - intros k s Hk Hk1. destruct Hw3 as [Hw3|[Hw3 Hwb]].
    + rewrite Hw3 in Hk1. destruct (Hign k s Hk Hk1); auto.
    + rewrite Hw3 in Hk1. destruct (decide (k = j st)) as [->|Hne].
      * rewrite Hjb in Hk. injection Hk as <-. auto.
      * rewrite list_lookup_insert_ne in Hk1 by auto.
        destruct (Hign k s Hk Hk1); auto.
  - intros Hc. destruct (Hu1 Hc) as (Hc0 & -> & -> & _). auto.
  - intros Hc Hn. destruct (Hu1 Hc) as (Hc0 & _ & _ & Hi).
    rewrite (Hi Hn). apply Hnone; [exact Hc0|].
    destruct Hu2 as [Hu2|[_ Hu2]]; congruence.
  - destruct Hu2 as [->|[Hn ->]]; [exact Hnew|].
    right. split; [|reflexivity].
    destruct Hnew as [Hnew|[Hnew _]]; congruence.
Qed.

Lemma innerLoop_coverInvariant (this_sorted : StronglySorted startsNotAfter this)
  (fuel i : nat) (a : Selection)
  (acc : list Z * option (list Selection)) (st st' : Scan) :
  this !! i = Some a ->
  (i < j st)%nat ->
  boundsInOrder st ->
  isEqual (aStart st) (start a) = true
  /\ isBeforeOrEqual (end_ a) (aEnd st) = true ->
  coverInvariant this i a acc st ->
  innerLoop fuel options this i st = Some st' ->
  coverInvariant this i a acc st'.
Proof.
  intros Ha. revert st.
  induction fuel as [|fuel IH]; intros st Hj Hb Hs Hc; simpl.
  - destruct (this !! j st); [discriminate|]. intros [= <-]; auto.
  - destruct (this !! j st) as [b|] eqn:Hjb; [|intros [= <-]; auto].
    assert (Hab : startsNotAfter a b)
      by (apply (StronglySorted_lookup startsNotAfter this i (j st) a b);
          auto).
    apply IH.
    + apply innerBody_advances, Hj.
    + apply innerBody_boundsInOrder, Hb.
    + apply innerBody_sorted; auto.
    + apply innerBody_coverInvariant; auto. apply Hs.
Qed.

Lemma covers_refl (s : Selection) : covers s s.
Proof. unfold covers. split; coordinates. Qed.

Lemma outerBody_covers (this_sorted : StronglySorted startsNotAfter this)
  (fuel i : nat) (acc acc' : list Z * option (list Selection)) :
  coveredSoFar this i acc ->
  outerBody new fuel options this i acc = Some acc' ->
  coveredSoFar this (S i) acc'.
Proof.
  intros [HA HB]. unfold outerBody.
  destruct (decide (acc.1 !! i = Some 1)) as [Hi1|Hi1].
  { intros [= <-]. split; [exact HA|].
    intros l Hl k s Hk [Hlt|H1]; [|eauto].
    destruct (decide (k = i)) as [->|Hne]; [eauto|].
    apply (HB l Hl k s Hk). left. lia. }
  destruct (this !! i) as [a|] eqn:Ha.
  2:{ intros [= <-]. split; [exact HA|].
      intros l Hl k s Hk [Hlt|H1]; [|eauto].
      apply lookup_ge_None in Ha. pose proof (lookup_lt_Some _ _ _ Hk).
      apply (HB l Hl k s Hk). left. lia. }
  fold (scanFrom i a acc).
  destruct (innerLoop fuel options this i (scanFrom i a acc))
    as [st|] eqn:Hrun; simpl; [|discriminate].
  intros [= <-].
  destruct (innerLoop_invariant _ _ _ _ _ _ Hrun
              (scanFrom_boundsInOrder i a acc)) as [Hb He].
  pose proof (start_before_end a) as Hse.
  assert (Hinit : coverInvariant this i a acc (scanFrom i a acc)).
  { unfold coverInvariant, scanFrom, within. simpl.
    repeat split; auto; coordinates. }
  apply (innerLoop_coverInvariant this_sorted fuel i a acc _ st Ha) in Hinit;
    [|unfold scanFrom; simpl; lia|apply scanFrom_boundsInOrder
     |unfold scanFrom; simpl; split; coordinates|exact Hrun].
  destruct Hinit as (Hwa & Hign & Hch & Hnone & Hnew).
  (* what the array taken as base covers *)
  assert (Hbase : forall k s, this !! k = Some s ->
            (k < i)%nat \/ acc.1 !! k = Some 1 ->
            exists o, o ∈ default (take i this) (newSelections st)
                      /\ covers o s).
  { intros k s Hk Hor.
    destruct acc.2 as [l0|] eqn:Hl0.
    - destruct Hnew as [->|[Hn _]]; [|discriminate]. simpl.
      apply (HB l0 eq_refl k s Hk Hor).
    - destruct Hor as [Hlt|H1]; [|destruct (HA eq_refl k H1)].
      assert (Htake : default (take i this) (newSelections st)
                      = take i this)
        by (destruct Hnew as [->|[_ ->]]; reflexivity).
      rewrite Htake. exists s. split; [|apply covers_refl].
      apply list_elem_of_lookup. exists k.
      rewrite lookup_take_lt by lia. exact Hk. }
  (* the selection pushed has the bounds of the scan *)
  assert (Hpush : forall o l0,
            start o = aStart st -> end_ o = aEnd st ->
            (forall k s, this !! k = Some s ->
               (k < i)%nat \/ acc.1 !! k = Some 1 ->
               exists o', o' ∈ l0 /\ covers o' s) ->
            forall k s, this !! k = Some s ->
              (k < S i)%nat \/ ignoreSelections st !! k = Some 1 ->
              exists o', o' ∈ l0 ++ [o] /\ covers o' s).
  { intros o l0 Hso Heo Hl0 k s Hk Hor.
    assert (Hin : within st s -> exists o', o' ∈ l0 ++ [o] /\ covers o' s).
    { intros [H1 H2]. exists o. split.
      - apply elem_of_app. right. apply list_elem_of_here.
      - unfold covers. rewrite Hso, Heo. auto. }
    assert (Hold : (k < i)%nat \/ acc.1 !! k = Some 1 ->
                   exists o', o' ∈ l0 ++ [o] /\ covers o' s).
    { intros H. destruct (Hl0 k s Hk H) as (o' & Ho' & Hc).
      exists o'. split; [apply elem_of_app; auto|exact Hc]. }
    destruct Hor as [Hlt|H1].
    - destruct (decide (k = i)) as [->|Hne].
      + rewrite Ha in Hk. injection Hk as <-. auto.
      + apply Hold. left. lia.
    - destruct (Hign k s Hk H1); auto. }
  split; simpl.
  - destruct (changed st) eqn:Hc; [discriminate|].
    destruct (newSelections st) as [l0|] eqn:Hn; [discriminate|].
    intros _ k. rewrite (Hnone eq_refl eq_refl).
    apply HA. destruct Hnew as [Hnew|[_ Hnew]]; congruence.
  - intros l. destruct (changed st) eqn:Hc.
    + intros [= <-].
      destruct (fromStartEnd_direction (new i) (aStart st) (aEnd st) a
                  (aIsEmpty st))
        as (_ & H2 & H3); [exact Hb|exact He|].
      apply Hpush; auto.
    + destruct (newSelections st) as [l0|] eqn:Hn; [|discriminate].
      intros [= <-]. destruct (Hch eq_refl) as [H2 H3].
      apply Hpush; auto.
Qed.

Lemma outerLoop_covers (this_sorted : StronglySorted startsNotAfter this)
  (n fuel i : nat) (acc acc' : list Z * option (list Selection)) :
  coveredSoFar this i acc ->
  outerLoop new n fuel options this i acc = Some acc' ->
  coveredSoFar this (n + i) acc'.
Proof.
  revert i acc. induction n as [|n IH]; intros i acc Hacc; simpl.
  - intros [= <-]. exact Hacc.
  - destruct (outerBody new fuel options this i acc) as [acc1|] eqn:Hbody;
      simpl; [|discriminate].
    intros Hloop. replace (S (n + i)) with (n + S i)%nat by lia.
    eapply IH; [|exact Hloop]. eapply outerBody_covers; eauto.
Qed.

End MergeCovers.

(** X22: on a collection ordered by start, [merge] with either option
    loses no part of a selection: the span of every selection of the
    collection lies within the span of a selection of the result. *)
Theorem merge_covers_sorted (new : nat -> nat)
  (options : Selections.MergeOptions)
  (this result : Selections.t) (s : Selection) :
  StronglySorted startsNotAfter (Selections.selections this) ->
  Selections.merge new options this = Some result ->
  s ∈ Selections.selections this ->
  exists o, o ∈ Selections.selections result /\ covers o s.
Proof.
  intros Hs Hm Hin. unfold Selections.merge in Hm.
  destruct (Selections.outerLoop _ _ _ _ _ _ _) as [acc|] eqn:Hloop;
    simpl in Hm; [|discriminate].
  injection Hm as <-. simpl.
  destruct acc.2 as [l|] eqn:Hl; simpl.
  - apply outerLoop_covers in Hloop; [|exact Hs|].
    + destruct Hloop as [_ HB].
      apply list_elem_of_lookup in Hin as [k Hk].
      apply (HB l Hl k s Hk). left.
      apply lookup_lt_Some in Hk. lia.
    + split; simpl; [|discriminate].
      intros _ k Hk. apply lookup_replicate in Hk as [Hk _]. discriminate.
  - exists s. split; [exact Hin|apply covers_refl].
Qed.

Lemma merge_covers_sorted_witness :
  exists o, o ∈ [Examples.merged04]
            /\ covers o (Examples.range 1 0 2 0 4).
Proof.
  apply (merge_covers_sorted Examples.built (Selections.mkOptions true)
           (Selections.mk None
              [Examples.range 0 0 0 0 2; Examples.range 1 0 2 0 4])
           (Selections.mk None [Examples.merged04])).
  - simpl. apply StronglySorted_cons. split.
    + apply Forall_singleton. reflexivity.
    + apply StronglySorted_cons. split; [apply Forall_nil_2|constructor].
  - reflexivity.
  - apply list_elem_of_further, list_elem_of_here.
Defined.

Section MergeQuiet.

Import Selections.

Variable new : nat -> nat.
Variable options : MergeOptions.
Variable this : list Selection.

Lemma innerBody_quiet (i : nat) (b : Selection) (st : Scan) :
  triggers options (aStart st) (aEnd st) (aIsEmpty st) (start b) (end_ b)
  = false ->
  innerBody options this i b st = continue_ st.
Proof.
  unfold triggers, innerBody. intros H.
  destruct (decide (ignoreSelections st !! j st = Some 1)); [reflexivity|].
  destruct (aIsEmpty st).
  - destruct (isEqual (start b) (end_ b)); rewrite H; reflexivity.
  - apply orb_false_iff in H as [-> ->]. reflexivity.
Qed.

Lemma innerLoop_quiet (fuel i : nat) (st st' : Scan) :
  (forall k b, (j st <= k)%nat -> this !! k = Some b ->
               triggers options (aStart st) (aEnd st) (aIsEmpty st)
                        (start b) (end_ b) = false) ->
  innerLoop fuel options this i st = Some st' ->
  changed st' = changed st
  /\ ignoreSelections st' = ignoreSelections st
  /\ newSelections st' = newSelections st.
Proof.
  revert st. induction fuel as [|fuel IH]; intros st Hq; simpl.
  - destruct (this !! j st); [discriminate|]. intros [= <-]; auto.
  - destruct (this !! j st) as [b|] eqn:Hj; [|intros [= <-]; auto].
    rewrite (innerBody_quiet i b st (Hq _ b (Nat.le_refl _) Hj)).
    intros Hrun. apply IH in Hrun; [exact Hrun|].
    intros k b' Hk. apply Hq. simpl in Hk. lia.
Qed.

Lemma outerBody_quiet (fuel i : nat)
  (acc acc' : list Z * option (list Selection)) :
  StronglySorted (quiet options) this ->
  acc.2 = None ->
  outerBody new fuel options this i acc = Some acc' ->
  acc' = acc.
Proof.
  intros Hs Hnone. unfold outerBody.
  destruct (decide (acc.1 !! i = Some 1)); [congruence|].
  destruct (this !! i) as [a|] eqn:Ha; [|congruence].
  fold (scanFrom i a acc).
  destruct (innerLoop fuel options this i (scanFrom i a acc))
    as [st|] eqn:Hrun; simpl; [|discriminate].
  apply innerLoop_quiet in Hrun as (Hc & Hi & Hn).
  - simpl in Hc, Hi, Hn. rewrite Hc, Hn, Hnone, Hi.
    intros [= <-]. destruct acc; simpl in *; congruence.
  - simpl. intros k b Hk Hb.
    apply (StronglySorted_lookup (quiet options) this i k a b Hs); auto.
Qed.

Lemma outerLoop_quiet (n fuel i : nat)
  (acc acc' : list Z * option (list Selection)) :
  StronglySorted (quiet options) this ->
  acc.2 = None ->
  outerLoop new n fuel options this i acc = Some acc' ->
  acc' = acc.
Proof.
  intros Hs. revert i acc. induction n as [|n IH]; intros i acc Hnone; simpl.
  - congruence.
  - destruct (outerBody new fuel options this i acc) as [acc1|] eqn:Hbody;
      simpl; [|discriminate].
    apply outerBody_quiet in Hbody; auto. subst acc1.
    apply IH, Hnone.
Qed.

End MergeQuiet.

(** [merge] returns as it is a collection in which the scan from each
    selection steps over every selection after it. *)
Lemma merge_quiet_unchanged (new : nat -> nat)
  (options : Selections.MergeOptions)
  (this : Selections.t) :
  StronglySorted (quiet options) (Selections.selections this) ->
  Selections.merge new options this = Some this.
Proof.
  intros Hs. destruct (merge_total new options this) as [result Hr].
  rewrite Hr. f_equal.
  unfold Selections.merge in Hr.
  destruct (Selections.outerLoop _ _ _ _ _ _ _) as [acc|] eqn:Hloop;
    simpl in Hr; [|discriminate].
  apply outerLoop_quiet in Hloop; auto. subst acc.
  injection Hr as <-. destruct this; reflexivity.
Qed.

(** The order on positions, to decide systems of comparisons between
    positions: [before], [notAfter] and [sameAs] are the comparisons as
    propositions. *)
Module PositionOrder.
Definition eq (p q : Position) : Prop := isEqual p q = true.
Definition lt (p q : Position) : Prop := isBefore p q = true.
Definition le (p q : Position) : Prop := isBeforeOrEqual p q = true.

Lemma le_le (p q r : Position) : le p q -> le q r -> le p r.
Proof. unfold le. intros H1 H2. coordinates. Qed.

Lemma le_lt (p q r : Position) : le p q -> lt q r -> lt p r.
Proof. unfold le, lt. intros H1 H2. coordinates. Qed.

Lemma lt_le (p q r : Position) : lt p q -> le q r -> lt p r.
Proof. unfold le, lt. intros H1 H2. coordinates. Qed.

Lemma lt_lt (p q r : Position) : lt p q -> lt q r -> lt p r.
Proof. unfold lt. intros H1 H2. coordinates. Qed.

Lemma lt_irrefl (p : Position) : lt p p -> False.
Proof. unfold lt. intros H. coordinates. Qed.

Lemma eq_le (p q : Position) : eq p q -> le p q /\ le q p.
Proof. unfold eq, le. intros H. split; coordinates. Qed.

Lemma not_lt (p q : Position) : isBefore p q = false -> le q p.
Proof. unfold le. intros H. coordinates. Qed.

Lemma not_le (p q : Position) : isBeforeOrEqual p q = false -> lt q p.
Proof. unfold lt. intros H. coordinates. Qed.

Lemma not_eq (p q : Position) : isEqual p q = false -> lt p q \/ lt q p.
Proof. unfold lt. rewrite isEqual_false, !isBefore_true. lia. Qed.
End PositionOrder.

Ltac bool_hyps :=
  repeat match goal with
    | H : _ && _ = true |- _ => apply andb_true_iff in H; destruct H
    | H : _ || _ = false |- _ => apply orb_false_iff in H; destruct H
    | H : _ && _ = false |- _ => apply andb_false_iff in H; destruct H
    | H : _ || _ = true |- _ => apply orb_true_iff in H; destruct H
    | H : true = false |- _ => discriminate H
    | H : false = true |- _ => discriminate H
    end.

(** Adds the comparisons that follow by transitivity until a position is
    strictly before itself. *)
Ltac saturate_order :=
  repeat match goal with
    | H : PositionOrder.lt ?x ?x |- _ =>
        exact (False_ind _ (PositionOrder.lt_irrefl x H))
    | H1 : PositionOrder.le ?x ?y, H2 : PositionOrder.le ?y ?z |- _ =>
        lazymatch x with
        | z => fail
        | _ =>
            lazymatch goal with
            | _ : PositionOrder.le x z |- _ => fail
            | _ => pose proof (PositionOrder.le_le x y z H1 H2)
            end
        end
    | H1 : PositionOrder.le ?x ?y, H2 : PositionOrder.lt ?y ?z |- _ =>
        lazymatch goal with
        | _ : PositionOrder.lt x z |- _ => fail
        | _ => pose proof (PositionOrder.le_lt x y z H1 H2)
        end
    | H1 : PositionOrder.lt ?x ?y, H2 : PositionOrder.le ?y ?z |- _ =>
        lazymatch goal with
        | _ : PositionOrder.lt x z |- _ => fail
        | _ => pose proof (PositionOrder.lt_le x y z H1 H2)
        end
    | H1 : PositionOrder.lt ?x ?y, H2 : PositionOrder.lt ?y ?z |- _ =>
        lazymatch goal with
        | _ : PositionOrder.lt x z |- _ => fail
        | _ => pose proof (PositionOrder.lt_lt x y z H1 H2)
        end
    end.

(** Closes a goal that follows from the comparisons between positions
    among the hypotheses, by the order alone. *)
Ltac positions :=
  match goal with
  | |- ?b = false => destruct b eqn:?; [exfalso|reflexivity]
  | |- ?b = true => destruct b eqn:?; [reflexivity|exfalso]
  | |- False => idtac
  end;
  bool_hyps;
  unfold isAfter, isAfterOrEqual in *;
  repeat match goal with
    | H : negb _ = true |- _ => apply negb_true_iff in H
    | H : negb _ = false |- _ => apply negb_false_iff in H
    end;
  try congruence;
  repeat match goal with
    | H : isBefore ?p ?q = true |- _ => change (PositionOrder.lt p q) in H
    | H : isBeforeOrEqual ?p ?q = true |- _ =>
        change (PositionOrder.le p q) in H
    | H : isEqual ?p ?q = true |- _ =>
        apply PositionOrder.eq_le in H; destruct H
    | H : isBefore ?p ?q = false |- _ => apply PositionOrder.not_lt in H
    | H : isBeforeOrEqual ?p ?q = false |- _ =>
        apply PositionOrder.not_le in H
    | H : isEqual ?p ?q = false |- _ =>
        apply PositionOrder.not_eq in H; destruct H
    end;
  saturate_order.

Section MergeStable.

Import Selections.

Variable new : nat -> nat.
Variable options : MergeOptions.
Variable this : list Selection.

(** A selection [o] whose scan steps over the bounds under construction
    and over [b] also steps over the bounds after the body has run at
    [b], when [o] starts first and [b] last. *)
Lemma innerBody_stays_quiet (i : nat) (o b : Selection) (st : Scan) :
  boundsInOrder st ->
  isBeforeOrEqual (start o) (aStart st) = true ->
  isBeforeOrEqual (aStart st) (start b) = true ->
  quietAt options o (aStart st) (aEnd st) ->
  (ignoreSelections st !! j st <> Some 1 -> quiet options o b) ->
  quietAt options o (aStart (innerBody options this i b st))
                    (aEnd (innerBody options this i b st)).
Proof.
  intros Hb Hox Hxb Hq Hqb'. unfold boundsInOrder in Hb. unfold innerBody.
  destruct (decide (ignoreSelections st !! j st = Some 1)) as [|Hqb];
    [exact Hq|].
  apply Hqb' in Hqb.
  destruct (aIsEmpty st) eqn:Hem.
  - destruct (isEqual (start b) (end_ b)).
    + destruct (isEqual (start b) (aStart st)); simpl; exact Hq.
    + destruct (isBeforeOrEqual (start b) (aStart st)
                && isAfterOrEqual (end_ b) (start b)); simpl;
        [exact Hqb|exact Hq].
  - destruct (isAfterOrEqual (aStart st) (start b)
              && (isBefore (aStart st) (end_ b)
                  || alsoMergeConsecutiveSelections options
                     && isEqual (aStart st) (end_ b))) eqn:C1.
    + destruct (isBeforeOrEqual (aEnd st) (end_ b)); simpl; [exact Hqb|].
      destruct (isEqual (aStart st) (start b)) eqn:C3; simpl; [exact Hq|].
      exfalso. apply andb_true_iff in C1 as [C1 _]. clear Hq Hqb Hb Hox.
      positions.
    + destruct ((isAfter (aEnd st) (start b)
                 || alsoMergeConsecutiveSelections options
                    && isEqual (aEnd st) (start b))
                && isBeforeOrEqual (aEnd st) (end_ b)) eqn:C2; simpl;
        [|exact Hq].
      clear C1. pose proof (start_before_end o) as Hoe.
      pose proof (start_before_end b) as Hbe.
      unfold quiet, quietAt, triggers in *.
      destruct (alsoMergeConsecutiveSelections options); simpl in *;
        rewrite ?orb_false_r in *;
        destruct (isEqual (start o) (end_ o)) eqn:Eo.
      * assert (E1 : isEqual (aStart st) (aEnd st) = false)
          by (clear - Hb; positions).
        assert (E2 : isEqual (aStart st) (end_ b) = false)
          by (clear - Hb C2; positions).
        rewrite E1 in Hq. rewrite E2. clear Hqb.
        positions.
      * positions.
      * assert (E1 : isEqual (aStart st) (aEnd st) = false)
          by (clear - Hb; positions).
        assert (E2 : isEqual (aStart st) (end_ b) = false)
          by (clear - Hb C2; positions).
        rewrite E1 in Hq. rewrite E2. clear Hqb.
        positions.
      * positions.
Qed.

End MergeStable.

Section MergeStability.

Import Selections.

Variable new : nat -> nat.
Variable options : MergeOptions.
Variable this : list Selection.

(** The body only adds marks. *)
Lemma innerBody_marks (i : nat) (b : Selection) (st : Scan) (k : nat) :
  ignoreSelections st !! k = Some 1 ->
  ignoreSelections (innerBody options this i b st) !! k = Some 1.
Proof.
  intros Hk. unfold innerBody.
  assert (Hins : <[j st := 1]> (ignoreSelections st) !! k = Some 1).
  { destruct (decide (k = j st)) as [->|Hne].
    - apply list_lookup_insert_eq. eapply lookup_lt_Some, Hk.
    - rewrite list_lookup_insert_ne by auto. exact Hk. }
  repeat match goal with
         | |- context [ if ?c then _ else _ ] => destruct c
         end; simpl; auto.
Qed.

(** On a sorted array, what the scan stepped over since its last restart
    it would still step over after the body has run once more. *)
Lemma innerBody_stable (i : nat) (a b : Selection) (st : Scan) :
  StronglySorted startsNotAfter this ->
  this !! i = Some a ->
  this !! j st = Some b ->
  (i < j st)%nat ->
  boundsInOrder st ->
  isEqual (aStart st) (start a) = true ->
  length (ignoreSelections st) = length this ->
  stableBefore options this i st ->
  stableBefore options this i (innerBody options this i b st).
Proof.
  intros Hsorted Ha Hjb Hij Hb Hs Hlen Hst. unfold stableBefore in Hst.
  pose proof (lookup_lt_Some _ _ _ Hjb) as Hjlen.
  (* the three ways in which the body ends *)
  assert (Hcontinue : triggers options (aStart st) (aEnd st) (aIsEmpty st)
                        (start b) (end_ b) = false
                      \/ ignoreSelections st !! j st = Some 1 ->
                      stableBefore options this i (continue_ st)).
  { intros Hq k c Hk Hc Hn. simpl in Hk, Hn |- *.
    destruct (decide (k = j st)) as [->|Hne].
    - rewrite Hjb in Hc. injection Hc as <-.
      destruct Hq as [Hq|Hq]; [exact Hq|contradiction].
    - apply (Hst k c); auto; lia. }
  assert (Hmark : forall ns ch,
            stableBefore options this i
              (mkScan (S (j st)) (aStart st) (aEnd st) (aIsEmpty st) ch
                      (<[j st := 1]> (ignoreSelections st)) ns)).
  { intros ns ch k c Hk Hc Hn. simpl in Hk, Hn |- *.
    destruct (decide (k = j st)) as [->|Hne].
    - exfalso. apply Hn. apply list_lookup_insert_eq. lia.
    - rewrite list_lookup_insert_ne in Hn by auto.
      apply (Hst k c); auto; lia. }
  assert (Hrestart : forall s e,
            stableBefore options this i (absorbAndRestart i st s e)).
  { intros s e k c Hk. simpl in Hk. lia. }
  unfold innerBody.
  destruct (decide (ignoreSelections st !! j st = Some 1)); [auto|].
  unfold triggers in Hcontinue.
  destruct (aIsEmpty st) eqn:Hem.
  - destruct (isEqual (start b) (end_ b)) eqn:Eb.
    + destruct (isEqual (start b) (aStart st)) eqn:Ea; [apply Hmark|auto].
    + destruct (isBeforeOrEqual (start b) (aStart st)
                && isAfterOrEqual (end_ b) (start b)) eqn:C; [|auto].
      (* the empty selection takes the bounds of [b]: no unmarked
         selection lies between [i] and [j] *)
      intros k c Hk Hc Hn. simpl in Hk, Hn |- *. exfalso.
      destruct (decide (k = j st)) as [->|Hne].
      { apply Hn. apply list_lookup_insert_eq. lia. }
      rewrite list_lookup_insert_ne in Hn by auto.
      assert (Hkj : (i < k < j st)%nat) by lia.
      specialize (Hst k c Hkj Hc Hn). unfold triggers in Hst.
      assert (Hac : startsNotAfter a c)
        by (apply (StronglySorted_lookup startsNotAfter this i k a c);
            auto; lia).
      assert (Hcb : startsNotAfter c b)
        by (apply (StronglySorted_lookup startsNotAfter this k (j st) c b);
            auto; lia).
      unfold startsNotAfter in *. pose proof (start_before_end c) as Hce.
      apply andb_true_iff in C as [C _]. clear Hcontinue Hmark Hrestart.
      destruct (isEqual (start c) (end_ c)) eqn:Ec; positions.
  - destruct (isAfterOrEqual (aStart st) (start b)
              && (isBefore (aStart st) (end_ b)
                  || alsoMergeConsecutiveSelections options
                     && isEqual (aStart st) (end_ b))) eqn:C1.
    + destruct (isBeforeOrEqual (aEnd st) (end_ b)); [apply Hrestart|].
      destruct (isEqual (aStart st) (start b)); [apply Hmark|apply Hrestart].
    + destruct ((isAfter (aEnd st) (start b)
                 || alsoMergeConsecutiveSelections options
                    && isEqual (aEnd st) (start b))
                && isBeforeOrEqual (aEnd st) (end_ b)) eqn:C2;
        [apply Hrestart|].
      apply Hcontinue. left. reflexivity.
Qed.

Lemma innerLoop_quietInvariant (fuel i : nat) (a : Selection)
  (V : list Selection) (ign0 : list Z) (st st' : Scan) :
  StronglySorted startsNotAfter this ->
  this !! i = Some a ->
  (forall o, o ∈ V -> startsNotAfter o a) ->
  (forall o k c, o ∈ V -> (i < k)%nat -> this !! k = Some c ->
                 ign0 !! k <> Some 1 -> quiet options o c) ->
  (i < j st)%nat ->
  boundsInOrder st ->
  isEqual (aStart st) (start a) = true
  /\ isBeforeOrEqual (end_ a) (aEnd st) = true ->
  length (ignoreSelections st) = length this ->
  (forall k, ign0 !! k = Some 1 -> ignoreSelections st !! k = Some 1) ->
  (forall o, o ∈ V -> quietAt options o (aStart st) (aEnd st)) ->
  stableBefore options this i st ->
  innerLoop fuel options this i st = Some st' ->
  (forall k, ign0 !! k = Some 1 -> ignoreSelections st' !! k = Some 1)
  /\ (forall o, o ∈ V -> quietAt options o (aStart st') (aEnd st'))
  /\ stableBefore options this i st'
  /\ (length this <= j st')%nat
  /\ length (ignoreSelections st') = length this.
Proof.
  intros Hsorted Ha HV HVq. revert st.
  induction fuel as [|fuel IH];
    intros st Hij Hb Hs Hlen Hmarks Hq Hst; simpl.
  - destruct (this !! j st) eqn:Hj; [discriminate|]. intros [= <-].
    apply lookup_ge_None in Hj. auto.
  - destruct (this !! j st) as [b|] eqn:Hjb.
    2:{ intros [= <-]. apply lookup_ge_None in Hjb. auto. }
    assert (Hab : startsNotAfter a b)
      by (apply (StronglySorted_lookup startsNotAfter this i (j st) a b);
          auto).
    apply IH.
    + apply innerBody_advances, Hij.
    + apply innerBody_boundsInOrder, Hb.
    + apply (innerBody_sorted options this i a b st Hab Hb Hs).
    + apply innerBody_progress; auto.
    + intros k Hk. apply innerBody_marks, Hmarks, Hk.
    + destruct Hs as [Hs _].
      intros o Ho. apply (innerBody_stays_quiet options this i o b st Hb).
      * specialize (HV o Ho). unfold startsNotAfter in HV.
        clear - HV Hs. positions.
      * unfold startsNotAfter in Hab. clear - Hab Hs. positions.
      * apply Hq, Ho.
      * intros Hn. apply (HVq o (j st) b); auto.
    + destruct Hs as [Hs _]. eapply innerBody_stable; eauto.
Qed.

Lemma outerBody_quietSoFar (fuel i : nat)
  (acc acc' : list Z * option (list Selection)) :
  StronglySorted startsNotAfter this ->
  quietSoFar options this i acc ->
  outerBody new fuel options this i acc = Some acc' ->
  quietSoFar options this (S i) acc'.
Proof.
  intros Hsorted (HS & HQ & HO & HN & HL). unfold outerBody.
  assert (Hkeep : default (take (S i) this) acc.2
                  = default (take i this) acc.2 ->
                  quietSoFar options this (S i) acc).
  { intros HV. unfold quietSoFar. rewrite HV.
    split; [exact HS|]. split; [|split; [|split; [exact HN|exact HL]]].
    - intros o k c Ho Hk. apply HQ; auto. lia.
    - intros o k c Ho Hk. apply HO; auto. lia. }
  destruct (decide (acc.1 !! i = Some 1)) as [Hi1|Hi1].
  { intros [= <-]. apply Hkeep.
    destruct acc.2 as [l|] eqn:Hl; [reflexivity|].
    destruct (HN eq_refl i Hi1). }
  destruct (this !! i) as [a|] eqn:Ha.
  2:{ intros [= <-]. apply Hkeep. apply lookup_ge_None in Ha.
      destruct acc.2; simpl; [reflexivity|].
      rewrite !take_ge by lia. reflexivity. }
  clear Hkeep.
  set (V := default (take i this) acc.2) in *.
  fold (scanFrom i a acc).
  destruct (innerLoop fuel options this i (scanFrom i a acc))
    as [st|] eqn:Hrun; simpl; [|discriminate].
  intros [= <-].
  pose proof (start_before_end a) as Hse.
  pose proof (scanFrom_boundsInOrder i a acc) as Hb0.
  assert (Hs0 : isEqual (aStart (scanFrom i a acc)) (start a) = true
                /\ isBeforeOrEqual (end_ a) (aEnd (scanFrom i a acc)) = true)
    by (unfold scanFrom; simpl; clear - Hse; split; positions).
  assert (Hj0 : (i < j (scanFrom i a acc))%nat)
    by (unfold scanFrom; simpl; lia).
  destruct (innerLoop_invariant _ _ _ _ _ _ Hrun Hb0) as [Hb He].
  destruct (innerLoop_sorted options this Hsorted fuel i a _ st
              Ha Hj0 Hb0 Hs0 Hrun) as [Hs1 Hs2].
  assert (Hcover : coverInvariant this i a acc st).
  { apply (innerLoop_coverInvariant options this Hsorted fuel i a acc
             (scanFrom i a acc) st Ha Hj0 Hb0 Hs0); [|exact Hrun].
    unfold coverInvariant, scanFrom, within. simpl.
    clear - Hse. repeat split; auto; positions. }
  destruct Hcover as (_ & _ & Hch & Hnone & Hnew).
  destruct (innerLoop_quietInvariant fuel i a V acc.1
              (scanFrom i a acc) st Hsorted Ha)
    as (Hmarks & Hq & Hst & Hjlen & Hlen); auto.
  { intros o Ho. apply (HO o i a); auto. }
  { intros o k c Ho Hk. apply HQ; auto. lia. }
  { intros o Ho. apply (HQ o i a); auto. }
  { intros k c Hk. unfold scanFrom in Hk. simpl in Hk. lia. }
  (* the array that is being built grows by one selection, which has the
     bounds the scan ended with *)
  assert (HVst : default (take i this) (newSelections st) = V).
  { unfold V. destruct Hnew as [->|[-> ->]]; reflexivity. }
  set (acc' := (ignoreSelections st,
                if changed st
                then Some (default (take i this) (newSelections st)
                           ++ [fromStartEnd (new i) (aStart st) (aEnd st)
                                 (isReversed a)])
                else match newSelections st with
                     | Some l => Some (l ++ [a])
                     | None => None
                     end)).
  assert (Hfinal : exists o,
             default (take (S i) this) acc'.2 = V ++ [o]
             /\ start o = aStart st /\ end_ o = aEnd st
             /\ (acc'.2 = None ->
                 changed st = false /\ newSelections st = None)).
  { unfold acc'. simpl. destruct (changed st) eqn:Hc.
    - exists (fromStartEnd (new i) (aStart st) (aEnd st) (isReversed a)).
      destruct (fromStartEnd_direction (new i) (aStart st) (aEnd st) a
                  (aIsEmpty st))
        as (_ & H2 & H3); [exact Hb|exact He|].
      simpl. rewrite HVst. repeat split; auto; discriminate.
    - exists a. destruct (Hch eq_refl) as [H2 H3].
      destruct (newSelections st) as [l0|] eqn:Hn; simpl.
      + simpl in HVst. rewrite HVst. repeat split; auto; discriminate.
      + simpl in HVst. rewrite (take_S_r _ _ _ Ha), HVst.
        repeat split; auto. }
  destruct Hfinal as (o & HV' & Hso & Heo & Hnone').
  assert (Hem : isEqual (start o) (end_ o) = aIsEmpty st).
  { rewrite Hso, Heo. unfold boundsInOrder in Hb. clear - Hb.
    destruct (aIsEmpty st); [exact Hb|positions]. }
  unfold quietSoFar. rewrite HV'.
  assert (Hunmarked : forall k, ignoreSelections st !! k <> Some 1 ->
                                acc.1 !! k <> Some 1).
  { intros k Hk H0. apply Hk, Hmarks, H0. }
  split; [|split; [|split; [|split]]].
  - apply StronglySorted_app. split; [|split].
    + intros x1 x2 Hx1 Hx2. apply list_elem_of_singleton in Hx2. subst x2.
      unfold quiet. rewrite Hso, Heo. apply Hq, Hx1.
    + exact HS.
    + repeat constructor.
  - intros o' k c Ho' Hk Hc Hn.
    apply elem_of_app in Ho' as [Ho'|Ho'].
    + apply (HQ o' k c); auto. lia.
    + apply list_elem_of_singleton in Ho'. subst o'.
      unfold quiet, quietAt. rewrite Hem, Hso, Heo.
      apply (Hst k c); auto. apply lookup_lt_Some in Hc. lia.
  - intros o' k c Ho' Hk Hc.
    apply elem_of_app in Ho' as [Ho'|Ho'].
    + apply (HO o' k c); auto. lia.
    + apply list_elem_of_singleton in Ho'. subst o'.
      assert (Hac : startsNotAfter a c)
        by (apply (StronglySorted_lookup startsNotAfter this i k a c);
            auto; lia).
      unfold startsNotAfter in *. rewrite Hso. clear - Hac Hs1. positions.
  - intros Hn k. destruct (Hnone' Hn) as [Hc0 Hn0].
    simpl. rewrite (Hnone Hc0 Hn0). apply HN.
    destruct Hnew as [Hnew|[_ Hnew]]; congruence.
  - exact Hlen.
Qed.

Lemma outerLoop_quietSoFar (n fuel i : nat)
  (acc acc' : list Z * option (list Selection)) :
  StronglySorted startsNotAfter this ->
  quietSoFar options this i acc ->
  outerLoop new n fuel options this i acc = Some acc' ->
  quietSoFar options this (n + i) acc'.
Proof.
  intros Hsorted. revert i acc.
  induction n as [|n IH]; intros i acc Hacc; simpl.
  - intros [= <-]. exact Hacc.
  - destruct (outerBody new fuel options this i acc) as [acc1|] eqn:Hbody;
      simpl; [|discriminate].
    intros Hloop. replace (S (n + i)) with (n + S i)%nat by lia.
    eapply IH; [|exact Hloop]. eapply outerBody_quietSoFar; eauto.
Qed.

End MergeStability.

(** X23: on a collection ordered by start, [merge] is idempotent with
    either option: applied to its own result, it returns that result
    unchanged. *)
Theorem merge_idempotent_sorted (new new' : nat -> nat)
  (options : Selections.MergeOptions) (this result : Selections.t) :
  StronglySorted startsNotAfter (Selections.selections this) ->
  Selections.merge new options this = Some result ->
  Selections.merge new' options result = Some result.
Proof.
  intros Hs Hm. apply merge_quiet_unchanged.
  unfold Selections.merge in Hm.
  destruct (Selections.outerLoop _ _ _ _ _ _ _) as [acc|] eqn:Hloop;
    simpl in Hm; [|discriminate].
  injection Hm as <-. simpl.
  apply outerLoop_quietSoFar in Hloop; [|exact Hs|].
  - destruct Hloop as (HS & _).
    rewrite Nat.add_0_r, firstn_all in HS. exact HS.
  - unfold quietSoFar. simpl.
    split; [constructor|].
    split; [intros o k c Ho; apply elem_of_nil in Ho; contradiction|].
    split; [intros o k c Ho; apply elem_of_nil in Ho; contradiction|].
    split; [|apply length_replicate].
    intros _ k Hk. apply lookup_replicate in Hk as [Hk _]. discriminate.
Qed.

Lemma merge_idempotent_sorted_witness :
  Selections.merge (fun i => (200 + i)%nat) (Selections.mkOptions false)
    (Selections.mk None [Examples.merged04])
  = Some (Selections.mk None [Examples.merged04]).
Proof.
  apply (merge_idempotent_sorted Examples.built (fun i => (200 + i)%nat)
           (Selections.mkOptions false)
           (Selections.mk None
              [Examples.range 0 0 0 0 3; Examples.range 1 0 1 0 4])).
  - simpl. apply StronglySorted_cons. split.
    + apply Forall_singleton. reflexivity.
    + apply StronglySorted_cons. split; [apply Forall_nil_2|constructor].
  - reflexivity.
Defined.

(** ** selection.ts: the active position and single characters *)

(** X24: [activePosition] and [activeCharacter] throw on the same
    selections and documents; the position that [activePosition] returns is
    on the line [activeLine]; for a reversed selection (an empty one
    included) it is the active position itself, at the column
    [activeCharacter]; for the others [activeCharacter] is the column of
    that position, plus one when the selection ends with a line break. *)
Theorem active_accessors_agree (fresh : nat) (s : Selection)
  (doc : Document) :
  (is_Some (activePosition fresh s doc) <-> is_Some (activeCharacter s doc))
  /\ forall p c,
       activePosition fresh s doc = Some p ->
       activeCharacter s doc = Some c ->
       line p = activeLine s
       /\ (isReversed s = true -> p = active s /\ c = character p)
       /\ (isReversed s = false ->
           c = character p + (if endsWithLineBreak s then 1 else 0)).
Proof.
  pose proof (start_before_end s) as Hse.
  unfold activePosition, activeCharacter, activeLine, endPosition,
    endCharacter, endLine, endsWithLineBreak.
  destruct (isReversed s).
  - split; [split; eauto|].
    intros p c [= <-] [= <-]. repeat split; auto. discriminate.
  - destruct (Z.eqb_spec (line (start s)) (line (end_ s))) as [E|E];
      destruct (Z.eqb_spec (character (end_ s)) 0) as [C|C]; simpl.
    + rewrite Z.eqb_refl. simpl. split; [split; eauto|].
      intros p c [= <-] [= <-]. repeat split; try discriminate.
      intros _. destruct (Z.ltb_spec (line (start s)) (line (end_ s))); lia.
    + rewrite Z.eqb_refl. simpl. split; [split; eauto|].
      intros p c [= <-] [= <-]. repeat split; try discriminate.
      intros _. lia.
    + destruct (Z.eqb_spec (line (end_ s) - 1) (line (end_ s))); [lia|].
      simpl. destruct (lineAt doc (line (end_ s) - 1)) as [t|]; simpl.
      * split; [split; eauto|].
        intros p c [= <-] [= <-]. repeat split; try discriminate.
        intros _. simpl.
        destruct (Z.ltb_spec (line (start s)) (line (end_ s))); [lia|].
        exfalso. clear - Hse E H. coordinates.
      * split; [split; intros [x Hx]; discriminate|].
        intros p c Hp. discriminate.
    + rewrite Z.eqb_refl. simpl. split; [split; eauto|].
      intros p c [= <-] [= <-]. repeat split; try discriminate.
      intros _. lia.
Qed.

Lemma active_accessors_agree_witness :
  line (at_ 0 3 7) = activeLine (Examples.range 0 0 0 1 0)
  /\ (isReversed (Examples.range 0 0 0 1 0) = true ->
      at_ 0 3 7 = active (Examples.range 0 0 0 1 0)
      /\ 4 = character (at_ 0 3 7))
  /\ (isReversed (Examples.range 0 0 0 1 0) = false ->
      4 = character (at_ 0 3 7)
          + (if endsWithLineBreak (Examples.range 0 0 0 1 0)
             then 1 else 0)).
Proof.
  destruct (active_accessors_agree 7 (Examples.range 0 0 0 1 0)
              Examples.abc_def) as [_ H].
  apply H; reflexivity.
Defined.

(** X25: the selection from a position of the document to the position
    one character after it is a single character, and so is
    non-directional in character mode and never in caret mode. *)
Theorem one_step_is_single_character (fresh r : nat) (p q : Position)
  (doc : Document) :
  (forall t, lineAt doc (line p) = Some t -> character p <= textLength t) ->
  next fresh p doc = Some q ->
  isSingleCharacter (mkSelection p q r) doc = Some true
  /\ isNonDirectional (mkSelection p q r) (mkContext Character doc)
     = Some true
  /\ isNonDirectional (mkSelection p q r) (mkContext Caret doc) = Some false.
Proof.
  intros Hvalid Hnext. unfold next in Hnext.
  destruct (lineAt doc (line p)) as [t|] eqn:Ht; simpl in Hnext;
    [|discriminate].
  specialize (Hvalid t eq_refl).
  assert (Hpq : isBefore p q = true).
  { destruct (Z.ltb_spec (character p) (textLength t)).
    - injection Hnext as <-. apply isBefore_true. simpl. lia.
    - destruct (Z.eqb_spec (line p) (lineCount doc - 1)); [discriminate|].
      injection Hnext as <-. apply isBefore_true. simpl. lia. }
  assert (Hsingle : isSingleCharacter (mkSelection p q r) doc = Some true).
  { unfold isSingleCharacter, start, end_. simpl. rewrite Hpq.
    destruct (Z.ltb_spec (character p) (textLength t)).
    - injection Hnext as <-. simpl. rewrite Z.eqb_refl. f_equal. lia.
    - destruct (Z.eqb_spec (line p) (lineCount doc - 1)); [discriminate|].
      injection Hnext as <-. simpl.
      destruct (Z.eqb_spec (line p) (line p + 1)); [lia|].
      destruct (Z.eqb_spec (line p) (line p + 1 - 1)); [|lia].
      rewrite Ht. simpl. f_equal. lia. }
  split; [exact Hsingle|].
  unfold isNonDirectional, isReversed. simpl. rewrite Hpq. simpl.
  split; [exact Hsingle|reflexivity].
Qed.

Lemma one_step_is_single_character_witness :
  isSingleCharacter (mkSelection (at_ 0 3 0) (at_ 1 0 5) 0) Examples.abc_def
  = Some true.
Proof.
  destruct (one_step_is_single_character 5 0 (at_ 0 3 0) (at_ 1 0 5)
              Examples.abc_def) as [H _].
  - intros t [= <-]. vm_compute. discriminate.
  - reflexivity.
  - exact H.
Defined.

Lemma next_is_after (fresh : nat) (p q : Position) (doc : Document) :
  next fresh p doc = Some q -> isBefore p q = true.
Proof.
  unfold next. destruct (lineAt doc (line p)) as [t|]; simpl; [|discriminate].
  destruct (Z.ltb_spec (character p) (textLength t)).
  - intros [= <-]. apply isBefore_true. simpl. lia.
  - destruct (Z.eqb_spec (line p) (lineCount doc - 1)); [discriminate|].
    intros [= <-]. apply isBefore_true. simpl. lia.
Qed.

(** X26: in caret mode [activeStart] and [activeEnd] are the active
    position.  In character mode, for a selection that is not empty, whose
    anchor and active positions are two objects and whose start and end
    have valid columns, the positions that [activeStart] and [activeEnd]
    return delimit a range that is not empty and lies within the
    selection. *)
Theorem active_character_within (fresh fresh' : nat) (s : Selection)
  (doc : Document) (p q : Position) :
  (activeStart fresh s (mkContext Caret doc) = Some (active s)
   /\ activeEnd fresh' s (mkContext Caret doc) = Some (active s))
  /\ (same_object (anchor s) (active s) = false ->
      isBefore (start s) (end_ s) = true ->
      validColumn doc (start s) -> validColumn doc (end_ s) ->
      activeStart fresh s (mkContext Character doc) = Some p ->
      activeEnd fresh' s (mkContext Character doc) = Some q ->
      isBeforeOrEqual (start s) p = true
      /\ isBefore p q = true
      /\ isBeforeOrEqual q (end_ s) = true).
Proof.
  split; [split; reflexivity|].
  intros Hobj Hne [Hs0 Hs] [He0 He].
  assert (Hobj' : same_object (active s) (anchor s) = false).
  { unfold same_object in *. rewrite Nat.eqb_sym. exact Hobj. }
  assert (Hrefl : same_object (active s) (active s) = true).
  { unfold same_object. apply Nat.eqb_refl. }
  unfold activeStart, activeEnd. simpl.
  destruct (isSingleCharacter s doc) as [[|]|]; simpl; try discriminate.
  { intros [= <-] [= <-]. repeat split; auto; coordinates. }
  destruct (start_end_cases s) as [(Hst & Hen & E)|(Hst & Hen & E)].
  - (* the active position is the end *)
    rewrite Hst, Hen in *. rewrite Hobj', Hrefl.
    intros Hp [= <-].
    pose proof (previous_is_before _ _ _ _ Hp) as Hpq.
    repeat split; auto; [|coordinates].
    unfold previous in Hp.
    destruct (Z.ltb_spec 0 (character (active s))).
    + injection Hp as <-. apply isBeforeOrEqual_true. simpl.
      apply isBefore_true in Hne. lia.
    + destruct (Z.leb_spec (line (active s)) 0); [discriminate|].
      destruct (lineAt doc (line (active s) - 1)) as [t|] eqn:Ht;
        simpl in Hp; [|discriminate].
      injection Hp as <-. apply isBeforeOrEqual_true. simpl.
      apply isBefore_true in Hne.
      destruct (Z.eq_dec (line (anchor s)) (line (active s) - 1)) as [El|El].
      * rewrite El in Hs. specialize (Hs t Ht). lia.
      * lia.
  - (* the active position is the start *)
    rewrite Hst, Hen in *. rewrite Hobj', Hrefl.
    intros [= <-] Hq.
    pose proof (next_is_after _ _ _ _ Hq) as Hpq.
    repeat split; auto; [coordinates|].
    unfold next in Hq.
    destruct (lineAt doc (line (active s))) as [t|] eqn:Ht;
      simpl in Hq; [|discriminate].
    apply isBefore_true in Hne.
    destruct (Z.ltb_spec (character (active s)) (textLength t)).
    + injection Hq as <-. apply isBeforeOrEqual_true. simpl. lia.
    + destruct (Z.eqb_spec (line (active s)) (lineCount doc - 1));
        [discriminate|].
      injection Hq as <-. apply isBeforeOrEqual_true. simpl.
      destruct (Z.eq_dec (line (anchor s)) (line (active s))) as [El|El].
      * rewrite El in He. specialize (He t Ht). lia.
      * lia.
Qed.

Lemma active_character_within_witness :
  isBeforeOrEqual (start (Examples.range 0 0 0 0 3)) (at_ 0 2 8) = true
  /\ isBefore (at_ 0 2 8) (at_ 0 3 1) = true
  /\ isBeforeOrEqual (at_ 0 3 1) (end_ (Examples.range 0 0 0 0 3)) = true.
Proof.
  destruct (active_character_within 8 9 (Examples.range 0 0 0 0 3)
              Examples.abcd (at_ 0 2 8) (at_ 0 3 1)) as [_ H].
  apply H; try reflexivity.
  - split; [simpl; lia|]. intros t [= <-]. vm_compute. discriminate.
  - split; [simpl; lia|]. intros t [= <-]. vm_compute. discriminate.
Defined.
